(** * GameClient (src/game.js): store synchronisation, camera and rendering

    A shallow embedding of the [GameClient] class.  Every method that
    touches the player store, the camera, the movement keys, the
    socket or the canvas is a function on an explicit client state.
    Callbacks of the browser (socket events, key events, animation
    frames, image loads) are the events of a small reactive system; each
    one runs to completion, as JavaScript callbacks do.

    Numbers.  In the client state JavaScript numbers are modelled as
    exact rationals [Q]: the program only adds, subtracts, halves, scales
    and compares coordinates, and equalities between computed
    coordinates are stated with [==] on [Q].  [NaN] and infinities are
    outside the model.  Where the rounding of IEEE doubles decides a
    property, the round trip of the two coordinate transformations, the
    functions are given a second time on binary64 floats ([Binary64]).

    Objects.  Player snapshots are JavaScript objects: [this.myPlayer]
    and an entry of [this.players] can be the same object, and
    [updatePlayerFacing] writes through [this.myPlayer].  The state
    therefore has an object store [objects]; the map and [myPlayer]
    hold references into it.

    Effects.  Calls of [ws.send] and [loadImage], the drawing calls of
    each completed [render()] and those of each [drawError()] are
    appended to logs in the state. *)

From Stdlib Require Import QArith Qminmax Lqa Floats Uint63.
From stdpp Require Import gmap strings list pretty.

Local Open Scope Q_scope.

(** ** JavaScript [Map] with string keys

    A [Map] iterates in insertion order: [set] on a key that is present
    keeps its position, a new key goes to the end.  [drawPlayers] and
    [drawMinimap] iterate [this.players], so the order is kept. *)

Module JsMap.
Section JsMap.
Context {V : Type}.

Fixpoint get (k : string) (m : list (string * V)) : option V :=
  match m with
  | [] => None
  | (k', v) :: m' => if decide (k' = k) then Some v else get k m'
  end.

Definition has (k : string) (m : list (string * V)) : bool :=
  match get k m with Some _ => true | None => false end.

Fixpoint set (k : string) (v : V) (m : list (string * V)) : list (string * V) :=
  match m with
  | [] => [(k, v)]
  | (k', v') :: m' =>
      if decide (k' = k) then (k', v) :: m' else (k', v') :: set k v m'
  end.

Fixpoint delete (k : string) (m : list (string * V)) : list (string * V) :=
  match m with
  | [] => []
  | (k', v') :: m' =>
      if decide (k' = k) then delete k m' else (k', v') :: delete k m'
  end.

Definition clear (m : list (string * V)) : list (string * V) := [].

(** [for (const [k, v] of entries) m.set(k, v)] *)
Definition set_all (entries : list (string * V)) (m : list (string * V))
  : list (string * V) :=
  fold_left (fun acc kv => set kv.1 kv.2 acc) entries m.

Definition keys (m : list (string * V)) : list string := map fst m.

End JsMap.
End JsMap.

(** ** Parsed JSON objects

    A parsed object is given by its [Object.entries] list.  Property
    access [obj[k]] reads the binding of [k]; the last one is taken, as
    [JSON.parse] does for a repeated member, which is also what a loop of
    [Map.set] over the entries leaves in the map. *)

Module Obj.
Section Obj.
Context {V : Type}.

Fixpoint get (k : string) (o : list (string * V)) : option V :=
  match o with
  | [] => None
  | (k', v) :: o' =>
      match get k o' with
      | Some w => Some w
      | None => if decide (k' = k) then Some v else None
      end
  end.

End Obj.
End Obj.

(** ** Data *)

(** Player snapshot, as sent by the server. [animationFrame] may be
    absent. *)
Record Player := mkPlayer {
  p_id : string;
  p_username : string;
  p_x : Q;
  p_y : Q;
  p_facing : string;
  p_avatar : string;
  p_animationFrame : option N
}.

(** Avatar descriptor: [frames] maps a direction to the sources of its
    frames, in [Object.entries] order. *)
Record Avatar := mkAvatar {
  a_name : string;
  a_frames : list (string * list string)
}.

(** A loaded image. *)
Record Image := mkImage {
  img_src : string;
  img_width : Q;
  img_height : Q
}.

Inductive Direction := up | down | left | right.

#[global] Instance Direction_eq_dec : EqDecision Direction.
Proof. solve_decision. Defined.

(** Outbound messages, the argument of [ws.send] before
    [JSON.stringify]. *)
Inductive OutMsg :=
| out_join_game (username : string)
| out_move (direction : Direction)
| out_stop.

(** The [data] of an inbound [join_game]. *)
Record JoinGameData := mkJoinGameData {
  jg_success : bool;
  jg_playerId : string;
  jg_players : list (string * Player);
  jg_avatars : list (string * Avatar);
  jg_error : string
}.

(** Inbound messages, by their [action]. *)
Inductive InMsg :=
| in_join_game (data : JoinGameData)
| in_players_moved (players : list (string * Player))
| in_player_joined (player : Player) (avatar : Avatar)
| in_player_left (playerId : string)
| in_unknown (action : string).

(** Calls on a 2D canvas context.  [op_arc x y r] is
    [arc(x, y, r, 0, 2 * Math.PI)], the only form the program uses. *)
Inductive CanvasOp :=
| op_clearRect (x y w h : Q)
| op_drawImage9 (img : Image) (sx sy sw sh dx dy dw dh : Q)
| op_drawImage5 (img : Image) (dx dy dw dh : Q)
| op_save
| op_restore
| op_scale (sx sy : Q)
| op_shadowColor (c : string)
| op_shadowBlur (b : Q)
| op_shadowOffsetX (o : Q)
| op_shadowOffsetY (o : Q)
| op_beginPath
| op_arc (x y r : Q)
| op_fill
| op_fillStyle (c : string)
| op_strokeStyle (c : string)
| op_lineWidth (w : Q)
| op_font (f : string)
| op_textAlign (a : string)
| op_strokeText (text : string) (x y : Q)
| op_fillText (text : string) (x y : Q)
| op_fillRect (x y w h : Q)
| op_strokeRect (x y w h : Q).

(** The calls of one [render()]: on [ctx] and on [minimapCtx]. *)
Record Frame := mkFrame {
  main_ops : list CanvasOp;
  minimap_ops : list CanvasOp
}.

(** ** Client state

    The fields of [GameClient].  Left out: the loading screen
    ([loadingProgress], [loadingSteps], [currentLoadingStep]), the DOM
    handles and [serverUrl].  [canvasWidth]/[canvasHeight] are
    [canvas.width]/[canvas.height]; [worldImage] is the image element
    once [loadWorldMap] has created it.  The last four fields are the
    effect logs, oldest first: the calls of [ws.send], the loads
    started, the canvas calls of each completed [render()], and the
    canvas calls of each [drawError()]. *)
Record GameClient := mkGameClient {
  canvasWidth : Q;
  canvasHeight : Q;
  minimapWidth : Q;
  minimapHeight : Q;
  minimapScale : Q;
  worldImage : option Image;
  worldWidth : Q;
  worldHeight : Q;
  connected : bool;
  myPlayerId : option string;
  myPlayer : option nat;
  objects : list Player;
  players : list (string * nat);
  avatars : gmap string Avatar;
  avatarImages : gmap string Image;
  viewportX : Q;
  viewportY : Q;
  avatarSize : Q;
  needsRedraw : bool;
  pressedKeys : gset string;
  isMoving : bool;
  isRunning : bool;
  sent : list OutMsg;
  imageRequests : list (string * string);
  frames : list Frame;
  errorScreens : list (list CanvasOp)
}.

(** ** Field assignment

    [set_f v s] is the state after [this.f = v]. *)

Definition set_canvasWidth (v : Q) (s : GameClient) : GameClient :=
  mkGameClient v (canvasHeight s) (minimapWidth s) (minimapHeight s)
    (minimapScale s) (worldImage s) (worldWidth s) (worldHeight s)
    (connected s) (myPlayerId s) (myPlayer s) (objects s) (players s)
    (avatars s) (avatarImages s) (viewportX s) (viewportY s)
    (avatarSize s) (needsRedraw s) (pressedKeys s) (isMoving s)
    (isRunning s) (sent s) (imageRequests s) (frames s) (errorScreens s).

Definition set_canvasHeight (v : Q) (s : GameClient) : GameClient :=
  mkGameClient (canvasWidth s) v (minimapWidth s) (minimapHeight s)
    (minimapScale s) (worldImage s) (worldWidth s) (worldHeight s)
    (connected s) (myPlayerId s) (myPlayer s) (objects s) (players s)
    (avatars s) (avatarImages s) (viewportX s) (viewportY s)
    (avatarSize s) (needsRedraw s) (pressedKeys s) (isMoving s)
    (isRunning s) (sent s) (imageRequests s) (frames s) (errorScreens s).

Definition set_minimapWidth (v : Q) (s : GameClient) : GameClient :=
  mkGameClient (canvasWidth s) (canvasHeight s) v (minimapHeight s)
    (minimapScale s) (worldImage s) (worldWidth s) (worldHeight s)
    (connected s) (myPlayerId s) (myPlayer s) (objects s) (players s)
    (avatars s) (avatarImages s) (viewportX s) (viewportY s)
    (avatarSize s) (needsRedraw s) (pressedKeys s) (isMoving s)
    (isRunning s) (sent s) (imageRequests s) (frames s) (errorScreens s).

Definition set_minimapHeight (v : Q) (s : GameClient) : GameClient :=
  mkGameClient (canvasWidth s) (canvasHeight s) (minimapWidth s) v
    (minimapScale s) (worldImage s) (worldWidth s) (worldHeight s)
    (connected s) (myPlayerId s) (myPlayer s) (objects s) (players s)
    (avatars s) (avatarImages s) (viewportX s) (viewportY s)
    (avatarSize s) (needsRedraw s) (pressedKeys s) (isMoving s)
    (isRunning s) (sent s) (imageRequests s) (frames s) (errorScreens s).

Definition set_worldImage (v : option Image) (s : GameClient) : GameClient :=
  mkGameClient (canvasWidth s) (canvasHeight s) (minimapWidth s)
    (minimapHeight s) (minimapScale s) v (worldWidth s) (worldHeight s)
    (connected s) (myPlayerId s) (myPlayer s) (objects s) (players s)
    (avatars s) (avatarImages s) (viewportX s) (viewportY s)
    (avatarSize s) (needsRedraw s) (pressedKeys s) (isMoving s)
    (isRunning s) (sent s) (imageRequests s) (frames s) (errorScreens s).

Definition set_connected (v : bool) (s : GameClient) : GameClient :=
  mkGameClient (canvasWidth s) (canvasHeight s) (minimapWidth s)
    (minimapHeight s) (minimapScale s) (worldImage s) (worldWidth s)
    (worldHeight s) v (myPlayerId s) (myPlayer s) (objects s) (players s)
    (avatars s) (avatarImages s) (viewportX s) (viewportY s)
    (avatarSize s) (needsRedraw s) (pressedKeys s) (isMoving s)
    (isRunning s) (sent s) (imageRequests s) (frames s) (errorScreens s).

Definition set_myPlayerId (v : option string) (s : GameClient) : GameClient :=
  mkGameClient (canvasWidth s) (canvasHeight s) (minimapWidth s)
    (minimapHeight s) (minimapScale s) (worldImage s) (worldWidth s)
    (worldHeight s) (connected s) v (myPlayer s) (objects s) (players s)
    (avatars s) (avatarImages s) (viewportX s) (viewportY s)
    (avatarSize s) (needsRedraw s) (pressedKeys s) (isMoving s)
    (isRunning s) (sent s) (imageRequests s) (frames s) (errorScreens s).

Definition set_myPlayer (v : option nat) (s : GameClient) : GameClient :=
  mkGameClient (canvasWidth s) (canvasHeight s) (minimapWidth s)
    (minimapHeight s) (minimapScale s) (worldImage s) (worldWidth s)
    (worldHeight s) (connected s) (myPlayerId s) v (objects s) (players s)
    (avatars s) (avatarImages s) (viewportX s) (viewportY s)
    (avatarSize s) (needsRedraw s) (pressedKeys s) (isMoving s)
    (isRunning s) (sent s) (imageRequests s) (frames s) (errorScreens s).

Definition set_objects (v : list Player) (s : GameClient) : GameClient :=
  mkGameClient (canvasWidth s) (canvasHeight s) (minimapWidth s)
    (minimapHeight s) (minimapScale s) (worldImage s) (worldWidth s)
    (worldHeight s) (connected s) (myPlayerId s) (myPlayer s) v
    (players s) (avatars s) (avatarImages s) (viewportX s) (viewportY s)
    (avatarSize s) (needsRedraw s) (pressedKeys s) (isMoving s)
    (isRunning s) (sent s) (imageRequests s) (frames s) (errorScreens s).

Definition set_players (v : list (string * nat)) (s : GameClient) : GameClient :=
  mkGameClient (canvasWidth s) (canvasHeight s) (minimapWidth s)
    (minimapHeight s) (minimapScale s) (worldImage s) (worldWidth s)
    (worldHeight s) (connected s) (myPlayerId s) (myPlayer s) (objects s)
    v (avatars s) (avatarImages s) (viewportX s) (viewportY s)
    (avatarSize s) (needsRedraw s) (pressedKeys s) (isMoving s)
    (isRunning s) (sent s) (imageRequests s) (frames s) (errorScreens s).

Definition set_avatars (v : gmap string Avatar) (s : GameClient) : GameClient :=
  mkGameClient (canvasWidth s) (canvasHeight s) (minimapWidth s)
    (minimapHeight s) (minimapScale s) (worldImage s) (worldWidth s)
    (worldHeight s) (connected s) (myPlayerId s) (myPlayer s) (objects s)
    (players s) v (avatarImages s) (viewportX s) (viewportY s)
    (avatarSize s) (needsRedraw s) (pressedKeys s) (isMoving s)
    (isRunning s) (sent s) (imageRequests s) (frames s) (errorScreens s).

Definition set_avatarImages (v : gmap string Image) (s : GameClient) : GameClient :=
  mkGameClient (canvasWidth s) (canvasHeight s) (minimapWidth s)
    (minimapHeight s) (minimapScale s) (worldImage s) (worldWidth s)
    (worldHeight s) (connected s) (myPlayerId s) (myPlayer s) (objects s)
    (players s) (avatars s) v (viewportX s) (viewportY s) (avatarSize s)
    (needsRedraw s) (pressedKeys s) (isMoving s) (isRunning s) (sent s)
    (imageRequests s) (frames s) (errorScreens s).

Definition set_viewportX (v : Q) (s : GameClient) : GameClient :=
  mkGameClient (canvasWidth s) (canvasHeight s) (minimapWidth s)
    (minimapHeight s) (minimapScale s) (worldImage s) (worldWidth s)
    (worldHeight s) (connected s) (myPlayerId s) (myPlayer s) (objects s)
    (players s) (avatars s) (avatarImages s) v (viewportY s)
    (avatarSize s) (needsRedraw s) (pressedKeys s) (isMoving s)
    (isRunning s) (sent s) (imageRequests s) (frames s) (errorScreens s).

Definition set_viewportY (v : Q) (s : GameClient) : GameClient :=
  mkGameClient (canvasWidth s) (canvasHeight s) (minimapWidth s)
    (minimapHeight s) (minimapScale s) (worldImage s) (worldWidth s)
    (worldHeight s) (connected s) (myPlayerId s) (myPlayer s) (objects s)
    (players s) (avatars s) (avatarImages s) (viewportX s) v
    (avatarSize s) (needsRedraw s) (pressedKeys s) (isMoving s)
    (isRunning s) (sent s) (imageRequests s) (frames s) (errorScreens s).

Definition set_needsRedraw (v : bool) (s : GameClient) : GameClient :=
  mkGameClient (canvasWidth s) (canvasHeight s) (minimapWidth s)
    (minimapHeight s) (minimapScale s) (worldImage s) (worldWidth s)
    (worldHeight s) (connected s) (myPlayerId s) (myPlayer s) (objects s)
    (players s) (avatars s) (avatarImages s) (viewportX s) (viewportY s)
    (avatarSize s) v (pressedKeys s) (isMoving s) (isRunning s) (sent s)
    (imageRequests s) (frames s) (errorScreens s).

Definition set_pressedKeys (v : gset string) (s : GameClient) : GameClient :=
  mkGameClient (canvasWidth s) (canvasHeight s) (minimapWidth s)
    (minimapHeight s) (minimapScale s) (worldImage s) (worldWidth s)
    (worldHeight s) (connected s) (myPlayerId s) (myPlayer s) (objects s)
    (players s) (avatars s) (avatarImages s) (viewportX s) (viewportY s)
    (avatarSize s) (needsRedraw s) v (isMoving s) (isRunning s) (sent s)
    (imageRequests s) (frames s) (errorScreens s).

Definition set_isMoving (v : bool) (s : GameClient) : GameClient :=
  mkGameClient (canvasWidth s) (canvasHeight s) (minimapWidth s)
    (minimapHeight s) (minimapScale s) (worldImage s) (worldWidth s)
    (worldHeight s) (connected s) (myPlayerId s) (myPlayer s) (objects s)
    (players s) (avatars s) (avatarImages s) (viewportX s) (viewportY s)
    (avatarSize s) (needsRedraw s) (pressedKeys s) v (isRunning s)
    (sent s) (imageRequests s) (frames s) (errorScreens s).

Definition set_isRunning (v : bool) (s : GameClient) : GameClient :=
  mkGameClient (canvasWidth s) (canvasHeight s) (minimapWidth s)
    (minimapHeight s) (minimapScale s) (worldImage s) (worldWidth s)
    (worldHeight s) (connected s) (myPlayerId s) (myPlayer s) (objects s)
    (players s) (avatars s) (avatarImages s) (viewportX s) (viewportY s)
    (avatarSize s) (needsRedraw s) (pressedKeys s) (isMoving s) v (sent s)
    (imageRequests s) (frames s) (errorScreens s).

Definition set_sent (v : list OutMsg) (s : GameClient) : GameClient :=
  mkGameClient (canvasWidth s) (canvasHeight s) (minimapWidth s)
    (minimapHeight s) (minimapScale s) (worldImage s) (worldWidth s)
    (worldHeight s) (connected s) (myPlayerId s) (myPlayer s) (objects s)
    (players s) (avatars s) (avatarImages s) (viewportX s) (viewportY s)
    (avatarSize s) (needsRedraw s) (pressedKeys s) (isMoving s)
    (isRunning s) v (imageRequests s) (frames s) (errorScreens s).

Definition set_imageRequests (v : list (string * string)) (s : GameClient) : GameClient :=
  mkGameClient (canvasWidth s) (canvasHeight s) (minimapWidth s)
    (minimapHeight s) (minimapScale s) (worldImage s) (worldWidth s)
    (worldHeight s) (connected s) (myPlayerId s) (myPlayer s) (objects s)
    (players s) (avatars s) (avatarImages s) (viewportX s) (viewportY s)
    (avatarSize s) (needsRedraw s) (pressedKeys s) (isMoving s)
    (isRunning s) (sent s) v (frames s) (errorScreens s).

Definition set_frames (v : list Frame) (s : GameClient) : GameClient :=
  mkGameClient (canvasWidth s) (canvasHeight s) (minimapWidth s)
    (minimapHeight s) (minimapScale s) (worldImage s) (worldWidth s)
    (worldHeight s) (connected s) (myPlayerId s) (myPlayer s) (objects s)
    (players s) (avatars s) (avatarImages s) (viewportX s) (viewportY s)
    (avatarSize s) (needsRedraw s) (pressedKeys s) (isMoving s)
    (isRunning s) (sent s) (imageRequests s) v (errorScreens s).

Definition set_errorScreens (v : list (list CanvasOp)) (s : GameClient) : GameClient :=
  mkGameClient (canvasWidth s) (canvasHeight s) (minimapWidth s)
    (minimapHeight s) (minimapScale s) (worldImage s) (worldWidth s)
    (worldHeight s) (connected s) (myPlayerId s) (myPlayer s) (objects s)
    (players s) (avatars s) (avatarImages s) (viewportX s) (viewportY s)
    (avatarSize s) (needsRedraw s) (pressedKeys s) (isMoving s)
    (isRunning s) (sent s) (imageRequests s) (frames s) v.

Definition set_p_facing (v : string) (p : Player) : Player :=
  mkPlayer (p_id p) (p_username p) (p_x p) (p_y p) v (p_avatar p)
    (p_animationFrame p).

(** The object [this.myPlayer] refers to, if any. *)
Definition myPlayerObj (s : GameClient) : option Player :=
  myPlayer s ≫= fun r => objects s !! r.

(** [this.players.get(id)], dereferenced. *)
Definition getPlayer (playerId : string) (s : GameClient) : option Player :=
  JsMap.get playerId (players s) ≫= fun r => objects s !! r.

(** [JSON.parse] creates one new object per snapshot of the message.
    The result is the grown object store and the entries with a
    reference in place of each snapshot. *)
Definition alloc_players (entries : list (string * Player)) (objs : list Player)
  : list Player * list (string * nat) :=
  (objs ++ map snd entries,
   zip (map fst entries) (seq (length objs) (length entries))).

Definition Qltb (a b : Q) : bool :=
  match a ?= b with Lt => true | _ => false end.

(** ** Viewport/camera system *)

Definition updateViewport (s : GameClient) : GameClient :=
  match myPlayerObj s with
  | None => s
  | Some p =>
      let centerX := canvasWidth s / 2 in
      let centerY := canvasHeight s / 2 in
      let s := set_viewportX (p_x p - centerX) s in
      let s := set_viewportY (p_y p - centerY) s in
      let s := set_viewportX
                 (Qmax 0 (Qmin (viewportX s) (worldWidth s - canvasWidth s))) s in
      let s := set_viewportY
                 (Qmax 0 (Qmin (viewportY s) (worldHeight s - canvasHeight s))) s in
      s
  end.

(** [worldToScreen] and [screenToWorld] on the client state, in the
    exact arithmetic of the state; the renderer uses the first. *)
Definition worldToScreen (s : GameClient) (worldX worldY : Q) : Q * Q :=
  (worldX - viewportX s, worldY - viewportY s).

Definition screenToWorld (s : GameClient) (screenX screenY : Q) : Q * Q :=
  (screenX + viewportX s, screenY + viewportY s).

(** The two transformations as the program computes them: every number
    is an IEEE 754 binary64 and each [-] and [+] rounds to nearest.
    Rocq's primitive floats are binary64 with that rounding.
    [this.viewportX] and [this.viewportY] are the first two
    arguments. *)
Module Binary64.

Definition worldToScreen (viewportX viewportY worldX worldY : float)
  : float * float :=
  ((worldX - viewportX)%float, (worldY - viewportY)%float).

Definition screenToWorld (viewportX viewportY screenX screenY : float)
  : float * float :=
  ((screenX + viewportX)%float, (screenY + viewportY)%float).

End Binary64.

(** ** Canvas size *)

(** [resizeCanvas()], with the window's [innerWidth] and [innerHeight]. *)
Definition resizeCanvas (innerWidth innerHeight : Q) (s : GameClient)
  : GameClient :=
  let s := set_canvasWidth innerWidth s in
  let s := set_canvasHeight innerHeight s in
  let s := set_minimapWidth 200 s in
  let s := set_minimapHeight 200 s in
  let s := match myPlayer s with Some _ => updateViewport s | None => s end in
  set_needsRedraw true s.

(** ** Outbound messages *)

Definition ws_send (m : OutMsg) (s : GameClient) : GameClient :=
  set_sent (sent s ++ [m]) s.

Definition joinGame (s : GameClient) : GameClient :=
  if negb (connected s) then s
  else ws_send (out_join_game "Tim") s.

Definition sendMoveCommand (direction : Direction) (s : GameClient)
  : GameClient :=
  if negb (connected s) then s
  else ws_send (out_move direction) s.

Definition sendStopCommand (s : GameClient) : GameClient :=
  if negb (connected s) then s
  else ws_send out_stop s.

(** ** Keyboard controls *)

Definition toggleSpeed (s : GameClient) : GameClient :=
  set_isRunning (negb (isRunning s)) s.

Definition directionMap (direction : Direction) : string :=
  match direction with
  | up => "north"
  | down => "south"
  | left => "west"
  | right => "east"
  end.

Definition updatePlayerFacing (direction : Direction) (s : GameClient)
  : GameClient :=
  match myPlayer s with
  | None => s
  | Some r =>
      match objects s !! r with
      | None => s
      | Some p =>
          let s := set_objects
                     (<[r := set_p_facing (directionMap direction) p]> (objects s))
                     s in
          set_needsRedraw true s
      end
  end.

Definition getMovementDirections (s : GameClient) : list Direction :=
  let directions := [] in
  let directions :=
    if bool_decide ("ArrowUp" ∈ pressedKeys s)
    then directions ++ [up] else directions in
  let directions :=
    if bool_decide ("ArrowDown" ∈ pressedKeys s)
    then directions ++ [down] else directions in
  let directions :=
    if bool_decide ("ArrowLeft" ∈ pressedKeys s)
    then directions ++ [left] else directions in
  let directions :=
    if bool_decide ("ArrowRight" ∈ pressedKeys s)
    then directions ++ [right] else directions in
  directions.

Definition updateMovement (s : GameClient) : GameClient :=
  match getMovementDirections s with
  | direction :: _ =>
      let s := sendMoveCommand direction s in
      let s := set_isMoving true s in
      let s := updatePlayerFacing direction s in
      updateViewport s
  | [] =>
      let s := sendStopCommand s in
      set_isMoving false s
  end.

Definition handleKeyDown (code : string) (s : GameClient) : GameClient :=
  if bool_decide (code = "ShiftLeft") || bool_decide (code = "ShiftRight")
  then toggleSpeed s
  else if bool_decide (code ∈ pressedKeys s) then s
  else
    let s := set_pressedKeys ({[code]} ∪ pressedKeys s) s in
    updateMovement s.

Definition handleKeyUp (code : string) (s : GameClient) : GameClient :=
  let s := set_pressedKeys (pressedKeys s ∖ {[code]}) s in
  updateMovement s.

(** ** Avatar image loading *)

(** The template [`${avatarName}_${direction}_${i}`]. *)
Definition imageKey (avatarName direction : string) (i : N) : string :=
  avatarName +:+ "_" +:+ direction +:+ "_" +:+ pretty i.

(** [loadAvatarImages] starts one [loadImage] per frame whose key is
    not in the cache; the started loads are logged as (key, source). *)
Definition loadAvatarImages (avatarName : string) (avatarData : Avatar)
  (s : GameClient) : GameClient :=
  let started :=
    flat_map
      (fun '(direction, frames) =>
         omap (fun x => x)
           (imap (fun i src =>
                    let key := imageKey avatarName direction (N.of_nat i) in
                    match avatarImages s !! key with
                    | None => Some (key, src)
                    | Some _ => None
                    end) frames))
      (a_frames avatarData) in
  set_imageRequests (imageRequests s ++ started) s.

(** The callback of one loaded image: [avatarImages.set(imageKey, img)]. *)
Definition imageLoaded (key : string) (img : Image) (s : GameClient)
  : GameClient :=
  set_avatarImages (<[key := img]> (avatarImages s)) s.

(** The callback of [Promise.all(imagePromises)]. *)
Definition imagesLoaded (s : GameClient) : GameClient :=
  set_needsRedraw true s.

(** [worldImage.onload], for an image of [width] x [height]. *)
Definition worldImageLoaded (width height : Q) (s : GameClient) : GameClient :=
  let s := set_worldImage (Some (mkImage "world.jpg" width height)) s in
  set_needsRedraw true s.

(** ** Message handling *)

(** The loop of [handleJoinGame] over [Object.entries(data.avatars)]. *)
Definition storeAvatars (entries : list (string * Avatar)) (s : GameClient)
  : GameClient :=
  fold_left
    (fun s '(avatarName, avatar) =>
       let s := set_avatars (<[avatarName := avatar]> (avatars s)) s in
       loadAvatarImages avatarName avatar s)
    entries s.

Definition handleJoinGame (data : JoinGameData) (s : GameClient)
  : GameClient :=
  if jg_success data then
    let '(objs, entries) := alloc_players (jg_players data) (objects s) in
    let s := set_objects objs s in
    let s := set_myPlayerId (Some (jg_playerId data)) s in
    let s := set_myPlayer (Obj.get (jg_playerId data) entries) s in
    let s := set_players (JsMap.clear (players s)) s in
    let s := set_players (JsMap.set_all entries (players s)) s in
    let s := set_avatars ∅ s in
    let s := storeAvatars (jg_avatars data) s in
    let s := updateViewport s in
    set_needsRedraw true s
  else s.

Definition handlePlayersMoved (data_players : list (string * Player))
  (s : GameClient) : GameClient :=
  let '(objs, entries) := alloc_players data_players (objects s) in
  let s := set_objects objs s in
  let s := set_players (JsMap.set_all entries (players s)) s in
  set_needsRedraw true s.

Definition handlePlayerJoined (player : Player) (avatar : Avatar)
  (s : GameClient) : GameClient :=
  let r := length (objects s) in
  let s := set_objects (objects s ++ [player]) s in
  let s := set_players (JsMap.set (p_id player) r (players s)) s in
  let s := set_avatars (<[a_name avatar := avatar]> (avatars s)) s in
  let s := loadAvatarImages (a_name avatar) avatar s in
  set_needsRedraw true s.

Definition handlePlayerLeft (playerId : string) (s : GameClient)
  : GameClient :=
  let s := set_players (JsMap.delete playerId (players s)) s in
  set_needsRedraw true s.

Definition handleMessage (data : InMsg) (s : GameClient) : GameClient :=
  match data with
  | in_join_game d => handleJoinGame d s
  | in_players_moved ps => handlePlayersMoved ps s
  | in_player_joined p a => handlePlayerJoined p a s
  | in_player_left i => handlePlayerLeft i s
  | in_unknown _ => s
  end.

(** ** Rendering *)

Definition drawWorldMap (s : GameClient) : list CanvasOp :=
  match worldImage s with
  | None => []
  | Some img =>
      [op_drawImage9 img
         (viewportX s) (viewportY s) (canvasWidth s) (canvasHeight s)
         0 0 (canvasWidth s) (canvasHeight s)]
  end.

Definition drawPlayerGlow (s : GameClient) (x y : Q) : list CanvasOp :=
  [op_save;
   op_shadowColor "#00ff00";
   op_shadowBlur 20;
   op_shadowOffsetX 0;
   op_shadowOffsetY 0;
   op_beginPath;
   op_arc x y (avatarSize s / 2 + 5);
   op_fillStyle "rgba(0, 255, 0, 0.3)";
   op_fill;
   op_restore].

(** [player.animationFrame || 0] *)
Definition frameIndexOf (player : Player) : N :=
  match p_animationFrame player with
  | Some n => n
  | None => 0%N
  end.

(** [drawAvatar]: the image's [width] and [height] are those of a
    loaded image, both positive. *)
Definition drawAvatar (s : GameClient) (player : Player) (x y : Q)
  : list CanvasOp :=
  match avatars s !! p_avatar player with
  | None => []
  | Some avatarData =>
      let direction := p_facing player in
      let frameIndex := frameIndexOf player in
      let key := imageKey (p_avatar player) direction frameIndex in
      match avatarImages s !! key with
      | None => []
      | Some avatarImage =>
          let aspectRatio := img_width avatarImage / img_height avatarImage in
          let width := avatarSize s in
          let height := avatarSize s / aspectRatio in
          let drawX := x - width / 2 in
          let drawY := y - height / 2 in
          if bool_decide (direction = "west") then
            [op_save;
             op_scale (-1) 1;
             op_drawImage5 avatarImage (- drawX - width) drawY width height;
             op_restore]
          else
            [op_drawImage5 avatarImage drawX drawY width height]
      end
  end.

Definition drawPlayerLabel (s : GameClient) (username : string) (x y : Q)
  : list CanvasOp :=
  let labelY := y - avatarSize s / 2 - 5 in
  [op_fillStyle "white";
   op_strokeStyle "black";
   op_lineWidth 2;
   op_font "12px Arial";
   op_textAlign "center";
   op_strokeText username x labelY;
   op_fillText username x labelY].

Definition drawPlayer (s : GameClient) (player : Player) : list CanvasOp :=
  let screenPos := worldToScreen s (p_x player) (p_y player) in
  if Qltb screenPos.1 (- avatarSize s)
     || Qltb (canvasWidth s + avatarSize s) screenPos.1
     || Qltb screenPos.2 (- avatarSize s)
     || Qltb (canvasHeight s + avatarSize s) screenPos.2
  then []
  else
    (if bool_decide (Some (p_id player) = myPlayerId s)
     then drawPlayerGlow s screenPos.1 screenPos.2 else [])
    ++ drawAvatar s player screenPos.1 screenPos.2
    ++ drawPlayerLabel s (p_username player) screenPos.1 screenPos.2.

Definition drawPlayers (s : GameClient) : list CanvasOp :=
  flat_map
    (fun '(playerId, r) =>
       match objects s !! r with
       | Some player => drawPlayer s player
       | None => []
       end)
    (players s).

Definition drawConnectionStatus (s : GameClient) : list CanvasOp :=
  [op_fillStyle (if connected s then "#27ae60" else "#e74c3c");
   op_fillRect 10 10 10 10;
   op_fillStyle "white";
   op_font "12px Arial";
   op_textAlign "left";
   op_fillText (if connected s then "Connected" else "Disconnected") 25 20].

Definition drawMinimap (s : GameClient) : list CanvasOp :=
  match worldImage s, myPlayer s with
  | Some img, Some _ =>
      [op_clearRect 0 0 (minimapWidth s) (minimapHeight s);
       op_drawImage5 img 0 0
         (worldWidth s * minimapScale s) (worldHeight s * minimapScale s)]
      ++ flat_map
           (fun '(playerId, r) =>
              match objects s !! r with
              | Some player =>
                  let minimapX := p_x player * minimapScale s in
                  let minimapY := p_y player * minimapScale s in
                  [op_fillStyle
                     (if bool_decide (Some playerId = myPlayerId s)
                      then "#00ff00" else "#ff0000");
                   op_beginPath;
                   op_arc minimapX minimapY 3;
                   op_fill]
              | None => []
              end)
           (players s)
      ++ [op_strokeStyle "#ffff00";
          op_lineWidth 2;
          op_strokeRect
            (viewportX s * minimapScale s) (viewportY s * minimapScale s)
            (canvasWidth s * minimapScale s) (canvasHeight s * minimapScale s)]
  | _, _ => []
  end.

Definition render (s : GameClient) : Frame :=
  mkFrame
    ([op_clearRect 0 0 (canvasWidth s) (canvasHeight s)]
     ++ drawWorldMap s
     ++ drawPlayers s
     ++ drawConnectionStatus s)
    (drawMinimap s).

(** [drawError()]: the message drawn on the main canvas when the world
    map fails to load. *)
Definition drawError (s : GameClient) : list CanvasOp :=
  [op_fillStyle "#e74c3c";
   op_font "24px Arial";
   op_textAlign "center";
   op_fillText "Failed to load world map"
     (canvasWidth s / 2) (canvasHeight s / 2)].

(** [worldImage.onerror]: [drawError()] draws at once, outside the
    render loop. *)
Definition worldImageFailed (s : GameClient) : GameClient :=
  set_errorScreens (errorScreens s ++ [drawError s]) s.

(** One animation frame of [startRenderLoop]: the [render] closure. *)
Definition renderTick (s : GameClient) : GameClient :=
  if needsRedraw s then
    let s := set_frames (frames s ++ [render s]) s in
    set_needsRedraw false s
  else s.

(** ** The client as a reactive system *)

(** The state when the constructor has run its assignments (the sizes
    of the two canvases are assigned by [resizeCanvas] in [init]), and
    [init] with the window size [innerWidth] x [innerHeight]:
    [resizeCanvas], then [loadWorldMap] creates the image element. *)
Definition constructed : GameClient :=
  mkGameClient 0 0 0 0 0.1 None 2048 2048 false None None [] [] ∅ ∅ 0 0 32
    true ∅ false false [] [] [] [].

Definition init (innerWidth innerHeight : Q) : GameClient :=
  let s := resizeCanvas innerWidth innerHeight constructed in
  set_worldImage (Some (mkImage "world.jpg" 0 0)) s.

Inductive Event :=
| ws_onopen
| ws_onmessage (data : InMsg)
| ws_onclose
| keydown (code : string)
| keyup (code : string)
| resize (innerWidth innerHeight : Q)
| animationFrame
| worldImage_onload (width height : Q)
| image_onload (key : string) (img : Image)
| images_onload
| worldImage_onerror.

Definition handle (e : Event) (s : GameClient) : GameClient :=
  match e with
  | ws_onopen => joinGame (set_connected true s)
  | ws_onmessage data => handleMessage data s
  | ws_onclose => set_connected false s
  | keydown code => handleKeyDown code s
  | keyup code => handleKeyUp code s
  | resize w h => resizeCanvas w h s
  | animationFrame => renderTick s
  | worldImage_onload w h => worldImageLoaded w h s
  | image_onload key img => imageLoaded key img s
  | images_onload => imagesLoaded s
  | worldImage_onerror => worldImageFailed s
  end.

(** The state after a sequence of events, first event first. *)
Definition run (es : list Event) (s : GameClient) : GameClient :=
  fold_left (fun s e => handle e s) es s.

(** The states the client can be in. *)
Definition reachable (s : GameClient) : Prop :=
  ∃ innerWidth innerHeight es, s = run es (init innerWidth innerHeight).

(** ** References are allocated

    Every reference held by [players] or [myPlayer] points into
    [objects].  All reachable states satisfy this. *)
Definition wf (s : GameClient) : Prop :=
  Forall (fun kr => (kr.2 < length (objects s))%nat) (players s)
  ∧ (∀ r, myPlayer s = Some r → (r < length (objects s))%nat).

(** ** The specification's vocabulary *)

(** Clamp [v] to the interval from [lo] to [hi]. *)
Definition clamp (lo hi v : Q) : Q :=
  if Qltb v lo then lo else if Qltb hi v then hi else v.

(** One axis of [computeViewport] in the words of the specification:
    centre on the position, clamp to [[0, worldDim - outputDim]], and
    clamp to 0 when the world is smaller than the output. *)
Definition computeViewport_axis (position outputDim worldDim : Q) : Q :=
  if Qltb worldDim outputDim then 0
  else clamp 0 (worldDim - outputDim) (position - outputDim / 2).

(** The key that holds a directional intent. *)
Definition arrowKey (d : Direction) : string :=
  match d with
  | up => "ArrowUp"
  | down => "ArrowDown"
  | left => "ArrowLeft"
  | right => "ArrowRight"
  end.

(** The held directional intents of a state. *)
Definition held (s : GameClient) (d : Direction) : bool :=
  bool_decide (arrowKey d ∈ pressedKeys s).

(** The reducer in the words of the specification: the first populated
    direction in the order up, down, left, right; [None] is [Stop]. *)
Definition priority : list Direction := [up; down; left; right].

Definition reduce (heldIntents : Direction → bool) : option Direction :=
  List.find heldIntents priority.

Definition intentMessage (i : option Direction) : OutMsg :=
  match i with
  | Some d => out_move d
  | None => out_stop
  end.

(** Inbound messages that mutate the store: a successful join
    ([replaceAll]), [players_moved] ([upsertMany]), [player_joined]
    ([upsertOne]) and [player_left] ([remove]). *)
Definition storeMutation (m : InMsg) : bool :=
  match m with
  | in_join_game d => jg_success d
  | in_players_moved _ => true
  | in_player_joined _ _ => true
  | in_player_left _ => true
  | in_unknown _ => false
  end.

(** ** Round trips on doubles *)

(** The double that is the natural number [n], and the double that is
    [n / 2].  Both are exact for the numbers used here (below [2^53]). *)
Definition double (n : nat) : float :=
  PrimFloat.of_uint63 (Uint63.of_Z (Z.of_nat n)).

Definition halves (n : nat) : float := (double n / 2)%float.

(** Both round trips return the point; [=?] is the equality of doubles,
    JavaScript's [===] on numbers. *)
Definition roundTrips (viewportX viewportY x y : float) : bool :=
  let p := Binary64.worldToScreen viewportX viewportY x y in
  let back := Binary64.screenToWorld viewportX viewportY p.1 p.2 in
  let q := Binary64.screenToWorld viewportX viewportY x y in
  let forth := Binary64.worldToScreen viewportX viewportY q.1 q.2 in
  (back.1 =? x)%float && (back.2 =? y)%float
  && (forth.1 =? x)%float && (forth.2 =? y)%float.

(** One axis of [roundTrips], and the check of a list of coordinates
    against a list of viewport offsets. *)
Definition axisRoundTrips (viewport coordinate : float) : bool :=
  (coordinate - viewport + viewport =? coordinate)%float
  && (coordinate + viewport - viewport =? coordinate)%float.

Definition gridRoundTrips (coordinates offsets : list float) : bool :=
  forallb
    (fun coordinate =>
       forallb (fun viewport => axisRoundTrips viewport coordinate) offsets)
    coordinates.

(** ** Where a sprite lands

    The canvas transform of the program is a pair of scale factors
    ([scale] is its only transform call).  A five-argument [drawImage]
    (an image and a destination rectangle, as [drawAvatar] calls it)
    puts the image's left edge at canvas x-coordinate [pl_left] and its
    right edge at [pl_right]; the image is flipped when
    [pl_right < pl_left].  [placements ops t saved] lists these sprites
    for the calls [ops], from the transform [t] and the stack [saved] of
    transforms kept by [save]. *)
Record Placement := mkPlacement {
  pl_img : Image;
  pl_left : Q;
  pl_right : Q;
  pl_top : Q;
  pl_bottom : Q
}.

Fixpoint placements (ops : list CanvasOp) (t : Q * Q) (saved : list (Q * Q))
  : list Placement :=
  match ops with
  | [] => []
  | op_save :: ops => placements ops t (t :: saved)
  | op_restore :: ops =>
      match saved with
      | t' :: saved' => placements ops t' saved'
      | [] => placements ops t []
      end
  | op_scale sx sy :: ops => placements ops (t.1 * sx, t.2 * sy) saved
  | op_drawImage5 img dx dy dw dh :: ops =>
      mkPlacement img (t.1 * dx) (t.1 * (dx + dw)) (t.2 * dy) (t.2 * (dy + dh))
      :: placements ops t saved
  | _ :: ops => placements ops t saved
  end.

(** [a] is [b] reflected in the vertical line at x-coordinate [c]. *)
Definition mirrored (c : Q) (a b : Placement) : Prop :=
  pl_img a = pl_img b
  ∧ pl_left a == 2 * c - pl_left b
  ∧ pl_right a == 2 * c - pl_right b
  ∧ pl_top a == pl_top b
  ∧ pl_bottom a == pl_bottom b.

(** ** A session

    A window of 800 x 600, the world of 2048 x 2048, one player [p1] of
    kind [fox] whose descriptor has frames for north, south and east. *)
Definition fox : Avatar :=
  mkAvatar "fox"
    [("north", ["fox-n0.png"]); ("south", ["fox-s0.png"]);
     ("east", ["fox-e0.png"])].

Definition p1At (x y : Q) (facing : string) : Player :=
  mkPlayer "p1" "Tim" x y facing "fox" None.

Definition joinResult (x y : Q) : InMsg :=
  in_join_game
    (mkJoinGameData true "p1" [("p1", p1At x y "south")] [("fox", fox)] "").

(** The client after the socket opened and the join succeeded with [p1]
    at [(x, y)]. *)
Definition joinedAt (x y : Q) : GameClient :=
  run [ws_onopen; ws_onmessage (joinResult x y)] (init 800 600).

Definition fox32 (src : string) : Image := mkImage src 32 32.

(** The same, with the three sprites of [fox] loaded (32 x 32 each) and
    one frame drawn. *)
Definition playing : GameClient :=
  run [image_onload "fox_north_0" (fox32 "fox-n0.png");
       image_onload "fox_south_0" (fox32 "fox-s0.png");
       image_onload "fox_east_0" (fox32 "fox-e0.png");
       images_onload;
       animationFrame]
    (joinedAt 1024 1024).

(** A second descriptor for the kind [fox]. *)
Definition fox' : Avatar :=
  mkAvatar "fox" [("east", ["fox2-e0.png"])].

(** ** Vocabulary for the properties of the event loop and the renderer *)

(** The number of animation frames among the events [es]. *)
Definition isAnimationFrame (e : Event) : bool :=
  match e with
  | animationFrame => true
  | _ => false
  end.

Definition ticks (es : list Event) : nat :=
  length (List.filter isAnimationFrame es).

(** The number of error events of the world image among [es]. *)
Definition isLoadError (e : Event) : bool :=
  match e with
  | worldImage_onerror => true
  | _ => false
  end.

Definition loadErrors (es : list Event) : nat :=
  length (List.filter isLoadError es).

(** The screen position [(sx, sy)] fails the visibility test of
    [drawPlayer]: it lies more than [avatarSize] outside an edge of the
    canvas. *)
Definition offScreen (s : GameClient) (sx sy : Q) : Prop :=
  sx < - avatarSize s
  ∨ canvasWidth s + avatarSize s < sx
  ∨ sy < - avatarSize s
  ∨ canvasHeight s + avatarSize s < sy.

(** The loads [loadAvatarImages] starts: the entries it appends to the
    log. *)
Definition startedLoads (avatarName : string) (avatarData : Avatar)
  (s : GameClient) : list (string * string) :=
  drop (length (imageRequests s))
    (imageRequests (loadAvatarImages avatarName avatarData s)).

(** The number of dots on the minimap: its [arc] calls. *)
Definition isArc (op : CanvasOp) : bool :=
  match op with
  | op_arc _ _ _ => true
  | _ => false
  end.

Definition dots (ops : list CanvasOp) : nat :=
  length (List.filter isArc ops).

(** * Properties *)

(** ** The insertion-ordered map *)

Section JsMapFacts.
Context {V : Type}.
Implicit Types (m : list (string * V)) (k : string) (v : V).

Lemma get_set_eq m k v : JsMap.get k (JsMap.set k v m) = Some v.
Proof.
  induction m as [|[k' v'] m IH]; simpl.
  - by rewrite decide_True.
  - destruct (decide (k' = k)) as [->|Hne]; simpl.
    + by rewrite decide_True.
    + by rewrite decide_False.
Qed.

Lemma get_set_ne m k k' v :
  k ≠ k' → JsMap.get k' (JsMap.set k v m) = JsMap.get k' m.
Proof.
  intros Hne. induction m as [|[k0 v0] m IH]; simpl.
  - by rewrite decide_False.
  - destruct (decide (k0 = k)) as [->|Hne0]; simpl.
    + by rewrite !decide_False.
    + destruct (decide (k0 = k')); [done | apply IH].
Qed.

Lemma get_delete_eq m k : JsMap.get k (JsMap.delete k m) = None.
Proof.
  induction m as [|[k' v'] m IH]; simpl; [done|].
  destruct (decide (k' = k)); simpl; [done|]. by rewrite decide_False.
Qed.

Lemma get_delete_ne m k k' :
  k ≠ k' → JsMap.get k' (JsMap.delete k m) = JsMap.get k' m.
Proof.
  intros Hne. induction m as [|[k0 v0] m IH]; simpl; [done|].
  destruct (decide (k0 = k)) as [->|Hne0]; simpl.
  - by rewrite decide_False.
  - by rewrite IH.
Qed.

Lemma delete_absent m k : JsMap.get k m = None → JsMap.delete k m = m.
Proof.
  induction m as [|[k' v'] m IH]; simpl; [done|].
  destruct (decide (k' = k)); [done|]. intros H. by rewrite IH.
Qed.

Lemma delete_delete m k :
  JsMap.delete k (JsMap.delete k m) = JsMap.delete k m.
Proof. apply delete_absent, get_delete_eq. Qed.

Lemma get_set_all es m k :
  JsMap.get k (JsMap.set_all es m) =
  match Obj.get k es with
  | Some v => Some v
  | None => JsMap.get k m
  end.
Proof.
  unfold JsMap.set_all. revert m.
  induction es as [|[k' v'] es IH]; intros m; simpl; [done|].
  rewrite IH. destruct (Obj.get k es); [done|].
  destruct (decide (k' = k)) as [->|Hne].
  - apply get_set_eq.
  - by apply get_set_ne.
Qed.

Lemma set_refs_bound (P : V → Prop) m k v :
  Forall (fun kv => P kv.2) m → P v →
  Forall (fun kv => P kv.2) (JsMap.set k v m).
Proof.
  intros Hm Hv. induction Hm as [|[k' v'] m Hx Hm IH]; simpl.
  - by constructor.
  - destruct (decide (k' = k)); constructor; auto.
Qed.

Lemma set_all_refs_bound (P : V → Prop) es m :
  Forall (fun kv => P kv.2) m → Forall (fun kv => P kv.2) es →
  Forall (fun kv => P kv.2) (JsMap.set_all es m).
Proof.
  unfold JsMap.set_all. intros Hm Hes. revert m Hm.
  induction Hes as [|[k v] es Hx Hes IH]; intros m Hm; simpl; [done|].
  apply IH. by apply set_refs_bound.
Qed.

Lemma delete_refs_bound (P : V → Prop) m k :
  Forall (fun kv => P kv.2) m →
  Forall (fun kv => P kv.2) (JsMap.delete k m).
Proof.
  intros Hm. induction Hm as [|[k' v'] m Hx Hm IH]; simpl; [done|].
  destruct (decide (k' = k)); [done|]. by constructor.
Qed.

Lemma get_refs_bound (P : V → Prop) m k v :
  Forall (fun kv => P kv.2) m → JsMap.get k m = Some v → P v.
Proof.
  intros Hm. induction Hm as [|[k' v'] m Hx Hm IH]; simpl; [done|].
  destruct (decide (k' = k)); [by intros [= <-] | done].
Qed.

Lemma obj_get_refs_bound (P : V → Prop) es k v :
  Forall (fun kv => P kv.2) es → Obj.get k es = Some v → P v.
Proof.
  intros Hes. induction Hes as [|[k' v'] es Hx Hes IH]; simpl; [done|].
  destruct (Obj.get k es) eqn:E.
  - intros [= <-]. by apply IH.
  - destruct (decide (k' = k)); [by intros [= <-] | done].
Qed.

(** Keys stay distinct: the list always stands for a [Map]. *)
Lemma keys_set m k v :
  JsMap.keys (JsMap.set k v m)
  = if JsMap.has k m then JsMap.keys m else JsMap.keys m ++ [k].
Proof.
  unfold JsMap.has, JsMap.keys.
  induction m as [|[k' v'] m IH]; simpl; [done|].
  destruct (decide (k' = k)); simpl; [done|]. rewrite IH.
  by destruct (JsMap.get k m).
Qed.

Lemma get_None_keys m k : JsMap.get k m = None → k ∉ JsMap.keys m.
Proof.
  unfold JsMap.keys. induction m as [|[k' v'] m IH]; simpl.
  - intros _. apply not_elem_of_nil.
  - destruct (decide (k' = k)); [done|]. intros H.
    apply not_elem_of_cons. split; [done | by apply IH].
Qed.

Lemma NoDup_keys_set m k v :
  NoDup (JsMap.keys m) → NoDup (JsMap.keys (JsMap.set k v m)).
Proof.
  intros Hm. rewrite keys_set. unfold JsMap.has.
  destruct (JsMap.get k m) eqn:E; [done|].
  apply NoDup_app. split; [done|]. split; [|apply NoDup_singleton].
  intros x Hx Hk. apply list_elem_of_singleton in Hk as ->.
  by apply (get_None_keys m k).
Qed.

Lemma NoDup_keys_set_all es m :
  NoDup (JsMap.keys m) → NoDup (JsMap.keys (JsMap.set_all es m)).
Proof.
  unfold JsMap.set_all. revert m.
  induction es as [|[k v] es IH]; intros m Hm; simpl; [done|].
  by apply IH, NoDup_keys_set.
Qed.

Lemma keys_delete_subset m k x :
  x ∈ JsMap.keys (JsMap.delete k m) → x ∈ JsMap.keys m.
Proof.
  unfold JsMap.keys. induction m as [|[k' v'] m IH]; simpl; [done|].
  destruct (decide (k' = k)); simpl.
  - intros H. apply elem_of_cons. right. by apply IH.
  - rewrite !elem_of_cons. intros [->|H]; [by left | right; by apply IH].
Qed.

Lemma NoDup_keys_delete m k :
  NoDup (JsMap.keys m) → NoDup (JsMap.keys (JsMap.delete k m)).
Proof.
  unfold JsMap.keys. induction m as [|[k' v'] m IH]; simpl; [done|].
  intros [Hk Hm]%NoDup_cons. destruct (decide (k' = k)); [by apply IH|].
  simpl. apply NoDup_cons. split; [|by apply IH].
  intros Hin. by apply Hk, (keys_delete_subset m k).
Qed.

End JsMapFacts.


(** ** What each method leaves alone *)

Lemma storeAvatars_frame {A} (f : GameClient → A) :
  (∀ v s, f (set_avatars v s) = f s) →
  (∀ v s, f (set_imageRequests v s) = f s) →
  ∀ es s, f (storeAvatars es s) = f s.
Proof.
  intros Hav Hrq es. unfold storeAvatars.
  induction es as [|[k a] es IH]; intros s; simpl; [done|].
  rewrite IH. unfold loadAvatarImages. by rewrite Hrq, Hav.
Qed.

Lemma updateViewport_frame {A} (f : GameClient → A) :
  (∀ v s, f (set_viewportX v s) = f s) →
  (∀ v s, f (set_viewportY v s) = f s) →
  ∀ s, f (updateViewport s) = f s.
Proof.
  intros HX HY s. unfold updateViewport.
  destruct (myPlayerObj s); [|done]. by rewrite HY, HX, HY, HX.
Qed.

Lemma updatePlayerFacing_frame {A} (f : GameClient → A) :
  (∀ v s, f (set_objects v s) = f s) →
  (∀ v s, f (set_needsRedraw v s) = f s) →
  ∀ d s, f (updatePlayerFacing d s) = f s.
Proof.
  intros Ho Hn d s. unfold updatePlayerFacing.
  destruct (myPlayer s); [|done].
  destruct (objects s !! _); [|done]. by rewrite Hn, Ho.
Qed.

Lemma handleJoinGame_success data s :
  jg_success data = true →
  handleJoinGame data s =
  let '(objs, entries) := alloc_players (jg_players data) (objects s) in
  set_needsRedraw true
    (updateViewport
       (storeAvatars (jg_avatars data)
          (set_avatars ∅
             (set_players (JsMap.set_all entries [])
                (set_myPlayer (Obj.get (jg_playerId data) entries)
                   (set_myPlayerId (Some (jg_playerId data))
                      (set_objects objs s))))))).
Proof. intros H. unfold handleJoinGame. by rewrite H. Qed.

(** No message handler draws, and none clears the dirty flag. *)
Lemma handleMessage_frames m s : frames (handleMessage m s) = frames s.
Proof.
  destruct m as [d|ps|p a|i|a]; simpl; try done.
  unfold handleJoinGame. destruct (jg_success d); [|done]. simpl.
  rewrite updateViewport_frame by done.
  by rewrite storeAvatars_frame by done.
Qed.

Lemma handleMessage_dirty m s :
  storeMutation m = true → needsRedraw (handleMessage m s) = true.
Proof. destruct m as [d|ps|p a|i|a]; simpl; try done.
  intros H. unfold handleJoinGame. by rewrite H. Qed.

Lemma handleMessage_keeps_dirty m s :
  needsRedraw s = true → needsRedraw (handleMessage m s) = true.
Proof.
  destruct m as [d|ps|p a|i|a]; simpl; try done.
  unfold handleJoinGame. by destruct (jg_success d).
Qed.

(** ** References stay allocated *)

Lemma alloc_players_refs (es : list (string * Player)) (objs : list Player) :
  Forall (fun kr : string * nat => (kr.2 < length objs + length es)%nat)
    (zip (map fst es) (seq (length objs) (length es))).
Proof.
  apply Forall_forall. intros [k r] Hin. simpl.
  apply elem_of_zip_r in Hin. apply elem_of_seq in Hin. lia.
Qed.

Lemma refs_bound_mono (n n' : nat) (m : list (string * nat)) :
  (n ≤ n')%nat →
  Forall (fun kr => (kr.2 < n)%nat) m → Forall (fun kr => (kr.2 < n')%nat) m.
Proof.
  intros Hle H. eapply Forall_impl; [exact H|]. intros [k r]; simpl; lia.
Qed.

Lemma wf_init w h : wf (init w h).
Proof. split; [constructor | done]. Qed.

Lemma wf_ext s s' :
  objects s' = objects s → players s' = players s → myPlayer s' = myPlayer s →
  wf s → wf s'.
Proof. unfold wf. by intros -> -> ->. Qed.

Lemma wf_updateViewport s : wf s → wf (updateViewport s).
Proof. apply wf_ext; by apply updateViewport_frame. Qed.

Lemma wf_updatePlayerFacing d s : wf s → wf (updatePlayerFacing d s).
Proof.
  intros Hwf. unfold updatePlayerFacing.
  destruct (myPlayer s) as [r|] eqn:Hr; [|done].
  destruct (objects s !! r) as [p|] eqn:Hp; [|done].
  destruct Hwf as [Hpl Hmy]. split; simpl; rewrite length_insert; done.
Qed.

Lemma wf_storeAvatars es s : wf s → wf (storeAvatars es s).
Proof. apply wf_ext; by apply storeAvatars_frame. Qed.

Lemma wf_handleJoinGame d s : wf s → wf (handleJoinGame d s).
Proof.
  intros Hwf. destruct (jg_success d) eqn:Hok.
  2: { unfold handleJoinGame. by rewrite Hok. }
  rewrite handleJoinGame_success by done. unfold alloc_players.
  match goal with |- wf (set_needsRedraw _ ?x) => apply (wf_ext x); [done..|] end.
  apply wf_updateViewport, wf_storeAvatars.
  pose proof (alloc_players_refs (jg_players d) (objects s)) as Hrefs.
  split; simpl; rewrite length_app, length_map.
  - apply (set_all_refs_bound (fun r => (r < _)%nat)); [constructor | done].
  - intros r Hr.
    by apply (obj_get_refs_bound
                (fun r => (r < length (objects s) + length (jg_players d))%nat)
                _ _ _ Hrefs Hr).
Qed.

Lemma wf_handlePlayersMoved ps s : wf s → wf (handlePlayersMoved ps s).
Proof.
  intros [Hpl Hmy]. unfold handlePlayersMoved.
  split; simpl; rewrite length_app, length_map.
  - apply (set_all_refs_bound (fun r => (r < _)%nat));
      [| apply alloc_players_refs].
    eapply refs_bound_mono; [|done]. lia.
  - intros r Hr. specialize (Hmy r Hr). lia.
Qed.

Lemma wf_handlePlayerJoined p a s : wf s → wf (handlePlayerJoined p a s).
Proof.
  intros [Hpl Hmy]. unfold handlePlayerJoined.
  split; simpl; rewrite length_app; simpl.
  - apply (set_refs_bound (fun r => (r < _)%nat)); [|lia]. eapply refs_bound_mono; [|done]. lia.
  - intros r Hr. specialize (Hmy r Hr). lia.
Qed.

Lemma wf_handlePlayerLeft i s : wf s → wf (handlePlayerLeft i s).
Proof.
  intros [Hpl Hmy]. split; simpl; [|done].
  by apply (delete_refs_bound (fun r => (r < _)%nat)).
Qed.

Lemma wf_updateMovement s : wf s → wf (updateMovement s).
Proof.
  intros Hwf. unfold updateMovement.
  destruct (getMovementDirections s) as [|d ds].
  - revert Hwf. apply wf_ext; unfold sendStopCommand;
      by destruct (connected s).
  - apply wf_updateViewport, wf_updatePlayerFacing.
    revert Hwf. apply wf_ext; unfold sendMoveCommand;
      by destruct (connected s).
Qed.

(** [wf] is an invariant of the client. *)
Lemma wf_handle e s : wf s → wf (handle e s).
Proof.
  intros Hwf. destruct e as [|m| |c|c|w h| |w h|k img| |]; simpl.
  - revert Hwf. apply wf_ext; unfold joinGame; done.
  - destruct m; simpl; auto using wf_handleJoinGame, wf_handlePlayersMoved,
      wf_handlePlayerJoined, wf_handlePlayerLeft.
  - done.
  - unfold handleKeyDown. destruct (_ || _); [done|].
    destruct (bool_decide _); [done|]. by apply wf_updateMovement.
  - by apply wf_updateMovement.
  - unfold resizeCanvas. simpl. destruct (myPlayer s); [|done].
    eapply wf_ext; [..|apply wf_updateViewport; apply Hwf]; simpl.
    all: by rewrite !updateViewport_frame by done.
  - unfold renderTick. by destruct (needsRedraw s).
  - done.
  - done.
  - done.
  - done.
Qed.

Lemma players_keys_NoDup e s :
  NoDup (JsMap.keys (players s)) → NoDup (JsMap.keys (players (handle e s))).
Proof.
  intros Hs. destruct e as [|m| |c|c|w h| |w h|k img| |]; simpl; try done.
  - destruct m as [d|ps|p a|i|a]; simpl; try done.
    + unfold handleJoinGame. destruct (jg_success d); [|done]. simpl.
      rewrite updateViewport_frame, storeAvatars_frame by done. simpl.
      apply NoDup_keys_set_all, NoDup_nil_2.
    + by apply NoDup_keys_set_all.
    + by apply NoDup_keys_set.
    + by apply NoDup_keys_delete.
  - unfold handleKeyDown. destruct (_ || _); [done|].
    destruct (bool_decide _); [done|]. unfold updateMovement.
    destruct (getMovementDirections _).
    + unfold sendStopCommand. simpl. by destruct (connected s).
    + rewrite updateViewport_frame, updatePlayerFacing_frame by done.
      unfold sendMoveCommand. simpl. by destruct (connected s).
  - unfold handleKeyUp, updateMovement.
    destruct (getMovementDirections _).
    + unfold sendStopCommand. simpl. by destruct (connected s).
    + rewrite updateViewport_frame, updatePlayerFacing_frame by done.
      unfold sendMoveCommand. simpl. by destruct (connected s).
  - unfold resizeCanvas. simpl. destruct (myPlayer s); [|done].
    by rewrite updateViewport_frame by done.
  - unfold renderTick. by destruct (needsRedraw s).
Qed.

Lemma wf_run es s : wf s → wf (run es s).
Proof.
  unfold run. revert s. induction es as [|e es IH]; intros s Hwf; simpl;
    [done|]. by apply IH, wf_handle.
Qed.

Lemma reachable_wf s : reachable s → wf s.
Proof. intros (w & h & es & ->). apply wf_run, wf_init. Qed.

(** ** Facing prediction and aliasing *)

(** Right after the join [myPlayer] is the object held by the store: a
    key press turns the stored player.  After a bulk move the store
    holds a new object and the key press only turns the old one. *)
Example facing_prediction_through_alias :
  p_facing <$> getPlayer "p1" (handle (keydown "ArrowLeft") playing)
  = Some "west".
Proof. reflexivity. Qed.

Example facing_prediction_after_bulk_move :
  let s1 := handle (ws_onmessage
                      (in_players_moved [("p1", p1At 1100 1024 "east")]))
              playing in
  let s2 := handle (keydown "ArrowLeft") s1 in
  p_facing <$> getPlayer "p1" s2 = Some "east"
  ∧ p_facing <$> myPlayerObj s2 = Some "west".
Proof. split; reflexivity. Qed.

(** ** Camera *)

Lemma Qltb_lt a b : Qltb a b = true ↔ a < b.
Proof.
  unfold Qltb. rewrite Qlt_alt. destruct (a ?= b); split; congruence.
Qed.

Lemma Qltb_ge a b : Qltb a b = false ↔ b <= a.
Proof.
  rewrite <- not_true_iff_false, Qltb_lt. split.
  - apply Qnot_lt_le.
  - intros Hle Hlt. by apply (Qlt_not_le _ _ Hlt).
Qed.

(** The clamp of [updateViewport] is the clamp of the specification. *)
Lemma clamp_viewport position outputDim worldDim :
  Qmax 0 (Qmin (position - outputDim / 2) (worldDim - outputDim))
  == computeViewport_axis position outputDim worldDim.
Proof.
  unfold computeViewport_axis, clamp.
  set (v := position - outputDim / 2).
  destruct (Q.min_spec v (worldDim - outputDim)) as [[Hlt ->]|[Hle ->]];
    destruct (Qltb worldDim outputDim) eqn:Hw;
    [apply Qltb_lt in Hw | apply Qltb_ge in Hw
    |apply Qltb_lt in Hw | apply Qltb_ge in Hw].
  - apply Q.max_l. lra.
  - destruct (Qltb v 0) eqn:H0; [apply Qltb_lt in H0 | apply Qltb_ge in H0].
    + apply Q.max_l. lra.
    + destruct (Qltb (worldDim - outputDim) v) eqn:H1;
        [apply Qltb_lt in H1; lra | by apply Q.max_r].
  - apply Q.max_l. lra.
  - destruct (Qltb v 0) eqn:H0; [apply Qltb_lt in H0 | apply Qltb_ge in H0].
    + apply Q.max_l. lra.
    + destruct (Qltb (worldDim - outputDim) v) eqn:H1;
        [apply Qltb_lt in H1 | apply Qltb_ge in H1].
      * apply Q.max_r. lra.
      * rewrite Q.max_r by lra. lra.
Qed.

(** C2.  For every tracked-entity position, output size and world
    size, [updateViewport] sets each coordinate of the viewport's top-left
    corner to [position - output/2] clamped to [[0, worldDim - outputDim]],
    and to 0 when [worldDim < outputDim].  For the world of 2048 x 2048
    and an output of 800 x 600 the corner is (0, 0) for an entity at
    (0, 0), (1248, 1448) at (2048, 2048) and (624, 724) at (1024, 1024). *)
Theorem updateViewport_clamps :
  (∀ s p, myPlayerObj s = Some p →
     viewportX (updateViewport s)
     == computeViewport_axis (p_x p) (canvasWidth s) (worldWidth s)
     ∧ viewportY (updateViewport s)
       == computeViewport_axis (p_y p) (canvasHeight s) (worldHeight s))
  ∧ (∀ position outputDim worldDim,
       (worldDim < outputDim →
          computeViewport_axis position outputDim worldDim == 0)
       ∧ (outputDim <= worldDim →
            0 <= computeViewport_axis position outputDim worldDim
              <= worldDim - outputDim))
  ∧ (viewportX (updateViewport (joinedAt 0 0)) == 0
     ∧ viewportY (updateViewport (joinedAt 0 0)) == 0)
  ∧ (viewportX (updateViewport (joinedAt 2048 2048)) == 1248
     ∧ viewportY (updateViewport (joinedAt 2048 2048)) == 1448)
  ∧ (viewportX (updateViewport (joinedAt 1024 1024)) == 624
     ∧ viewportY (updateViewport (joinedAt 1024 1024)) == 724).
Proof.
  split; [|split; [|by vm_compute]].
  - intros s p Hp. unfold updateViewport. rewrite Hp. simpl.
    split; apply clamp_viewport.
  - intros position outputDim worldDim. split.
    + intros Hlt. unfold computeViewport_axis.
      by apply Qltb_lt in Hlt as ->.
    + intros Hle. rewrite <- clamp_viewport. split.
      * apply Q.le_max_l.
      * apply Q.max_lub; [lra | apply Q.le_min_r].
Qed.

Lemma updateViewport_clamps_witness :
  myPlayerObj (joinedAt 1024 1024) = Some (p1At 1024 1024 "south")
  ∧ viewportX (updateViewport (joinedAt 1024 1024))
    == computeViewport_axis 1024 800 2048
  ∧ viewportY (updateViewport (joinedAt 1024 1024))
    == computeViewport_axis 1024 600 2048.
Proof.
  split; [reflexivity|].
  apply (proj1 updateViewport_clamps
           (joinedAt 1024 1024) (p1At 1024 1024 "south")).
  reflexivity.
Defined.

(** The same three cases on the viewport left by the join itself, and
    the specification's function on them. *)
Example viewport_after_join :
  (viewportX (joinedAt 0 0) == 0 ∧ viewportY (joinedAt 0 0) == 0)
  ∧ (viewportX (joinedAt 2048 2048) == 1248
     ∧ viewportY (joinedAt 2048 2048) == 1448)
  ∧ (viewportX (joinedAt 1024 1024) == 624
     ∧ viewportY (joinedAt 1024 1024) == 724).
Proof. by vm_compute. Qed.

Example computeViewport_axis_cases :
  computeViewport_axis 0 800 2048 == 0
  ∧ computeViewport_axis 2048 800 2048 == 1248
  ∧ computeViewport_axis 2048 600 2048 == 1448
  ∧ computeViewport_axis 1024 800 2048 == 624
  ∧ computeViewport_axis 1024 600 2048 == 724
  ∧ computeViewport_axis 1024 800 500 == 0.
Proof. by vm_compute. Qed.

(** In exact arithmetic [worldToScreen] and [screenToWorld] are mutual
    inverses for every viewport offset and every point: only the
    rounding of doubles can keep a round trip from returning the
    point. *)
Lemma worldToScreen_screenToWorld s x y :
  let p := worldToScreen s x y in
  let q := screenToWorld s x y in
  ((screenToWorld s p.1 p.2).1 == x ∧ (screenToWorld s p.1 p.2).2 == y)
  ∧ ((worldToScreen s q.1 q.2).1 == x ∧ (worldToScreen s q.1 q.2).2 == y).
Proof. simpl. repeat split; ring. Qed.

Lemma roundTrips_axes vx vy x y :
  roundTrips vx vy x y = axisRoundTrips vx x && axisRoundTrips vy y.
Proof.
  unfold roundTrips, axisRoundTrips, Binary64.worldToScreen,
    Binary64.screenToWorld. simpl.
  destruct (_ =? x)%float, (_ =? y)%float, (_ =? x)%float, (_ =? y)%float;
    reflexivity.
Qed.

(** Every integer coordinate from 0 to 2048 against every viewport
    offset that is a multiple of 1/2 from 0 to 2048, by evaluation on
    the doubles. *)
Lemma grid_checked :
  gridRoundTrips (map double (seq 0 2049)) (map halves (seq 0 4097)) = true.
Proof. vm_compute. reflexivity. Qed.

Lemma gridRoundTrips_spec coordinates offsets coordinate viewport :
  gridRoundTrips coordinates offsets = true →
  In coordinate coordinates → In viewport offsets →
  axisRoundTrips viewport coordinate = true.
Proof.
  unfold gridRoundTrips. intros H Hc Hv.
  apply (proj1 (List.forallb_forall _ _) H) in Hc.
  by apply (proj1 (List.forallb_forall _ _) Hc) in Hv.
Qed.

Lemma axisRoundTrips_grid i k :
  (i ≤ 2048)%nat → (k ≤ 4096)%nat →
  axisRoundTrips (halves k) (double i) = true.
Proof.
  intros Hi Hk.
  apply (gridRoundTrips_spec _ _ _ _ grid_checked).
  - apply (in_map double), in_seq. lia.
  - apply (in_map halves), in_seq. lia.
Qed.

(** C10, as the code has it.  [worldToScreen] and [screenToWorld] are
    translations by the viewport's top-left corner in opposite
    directions, computed on doubles.  For every point with integer
    coordinates from 0 to 2048 (the world) and every viewport offset
    that is a multiple of 1/2 from 0 to 2048 (what [updateViewport]
    yields for integer positions and canvas sizes), both round trips
    return the point.  It does not hold for every double. *)
Theorem binary64_round_trip_grid i j k l :
  (i ≤ 2048)%nat → (j ≤ 2048)%nat → (k ≤ 4096)%nat → (l ≤ 4096)%nat →
  let x := double i in
  let y := double j in
  let vx := halves k in
  let vy := halves l in
  let p := Binary64.worldToScreen vx vy x y in
  let q := Binary64.screenToWorld vx vy x y in
  ((Binary64.screenToWorld vx vy p.1 p.2).1 =? x)%float = true
  ∧ ((Binary64.screenToWorld vx vy p.1 p.2).2 =? y)%float = true
  ∧ ((Binary64.worldToScreen vx vy q.1 q.2).1 =? x)%float = true
  ∧ ((Binary64.worldToScreen vx vy q.1 q.2).2 =? y)%float = true.
Proof.
  intros Hi Hj Hk Hl x y vx vy p q.
  assert (roundTrips vx vy x y = true) as H.
  { rewrite roundTrips_axes. subst x y vx vy.
    by rewrite !axisRoundTrips_grid. }
  unfold roundTrips in H. fold p q in H.
  apply andb_prop in H as [H H4]. apply andb_prop in H as [H H3].
  apply andb_prop in H as [H1 H2]. done.
Qed.

Lemma binary64_round_trip_grid_witness :
  let x := double 1024 in
  let vx := halves 1248 in
  let p := Binary64.worldToScreen vx vx x x in
  ((1024 ≤ 2048)%nat ∧ (1248 ≤ 4096)%nat)
  ∧ (vx =? 624)%float = true
  ∧ ((Binary64.screenToWorld vx vx p.1 p.2).1 =? x)%float = true.
Proof.
  intros x vx p.
  assert ((1024 ≤ 2048)%nat ∧ (1248 ≤ 4096)%nat) as [H1 H2] by lia.
  split; [done|]. split; [reflexivity|].
  apply (binary64_round_trip_grid 1024 1024 1248 1248 H1 H1 H2 H2).
Defined.

(** C10 fails as stated: with the viewport at (624, 724), the point
    with x-coordinate 0.1 (the double nearest to 1/10) comes back from
    [worldToScreen] and then [screenToWorld] as 0.10000000000002274. *)
Lemma binary64_round_trip_inexact :
  let x := (1 / 10)%float in
  let p := Binary64.worldToScreen 624 724 x 0 in
  ((Binary64.screenToWorld 624 724 p.1 p.2).1 =? x)%float = false
  ∧ (Binary64.screenToWorld 624 724 p.1 p.2).1 ≠ x
  ∧ (x <? (Binary64.screenToWorld 624 724 p.1 p.2).1)%float = true.
Proof.
  intros x p. split; [reflexivity|]. split; [|reflexivity].
  intros H.
  assert (((Binary64.screenToWorld 624 724 p.1 p.2).1 =? x)%float = true)
    as Heq by (rewrite H; reflexivity).
  assert (((Binary64.screenToWorld 624 724 p.1 p.2).1 =? x)%float = false)
    as Hne by reflexivity.
  congruence.
Qed.

(** ** Movement intent *)

Lemma getMovementDirections_head s :
  head (getMovementDirections s) = reduce (held s).
Proof.
  unfold getMovementDirections, reduce, held, priority. simpl.
  by repeat destruct (bool_decide _).
Qed.

Lemma sent_updatePlayerFacing d s : sent (updatePlayerFacing d s) = sent s.
Proof. by apply updatePlayerFacing_frame. Qed.

Lemma sent_updateViewport s : sent (updateViewport s) = sent s.
Proof. by apply updateViewport_frame. Qed.

(** C3.  For every set of held keys, [updateMovement] reduces it to the
    first held direction in the order up, down, left, right, or to
    [Stop] when none is held, and transmits that one intent (nothing when
    the socket is not connected).  So [{up, left}] reduces to up,
    [{left, down}] to down and the empty set to [Stop]. *)
Theorem updateMovement_intent :
  (∀ s,
     head (getMovementDirections s) = reduce (held s)
     ∧ sent (updateMovement s)
       = sent s
         ++ (if connected s then [intentMessage (reduce (held s))] else []))
  ∧ (∀ s, pressedKeys s = {[ "ArrowUp"; "ArrowLeft" ]} →
          head (getMovementDirections s) = Some up)
  ∧ (∀ s, pressedKeys s = {[ "ArrowLeft"; "ArrowDown" ]} →
          head (getMovementDirections s) = Some down)
  ∧ (∀ s, pressedKeys s = ∅ → head (getMovementDirections s) = None).
Proof.
  split.
  - intros s. split; [apply getMovementDirections_head|].
    rewrite <- getMovementDirections_head. unfold updateMovement.
    destruct (getMovementDirections s) as [|d ds]; simpl.
    + unfold sendStopCommand. destruct (connected s); simpl; [done|].
      by rewrite app_nil_r.
    + rewrite sent_updateViewport, sent_updatePlayerFacing. simpl.
      unfold sendMoveCommand. destruct (connected s); simpl; [done|].
      by rewrite app_nil_r.
  - repeat split; intros s H; unfold getMovementDirections; by rewrite H.
Qed.

Lemma updateMovement_intent_witness :
  let s := run [keydown "ArrowLeft"; keydown "ArrowUp"] playing in
  pressedKeys s = {[ "ArrowUp"; "ArrowLeft" ]}
  ∧ head (getMovementDirections s) = Some up
  ∧ sent s = [out_join_game "Tim"; out_move left; out_move up].
Proof.
  intros s. split; [reflexivity|]. split; [|reflexivity].
  apply (proj1 (proj2 updateMovement_intent) s). reflexivity.
Defined.

(** The reducer of the specification on the same cases. *)
Example reduce_cases :
  reduce (fun d => bool_decide (d = up) || bool_decide (d = left)) = Some up
  ∧ reduce (fun d => bool_decide (d = left) || bool_decide (d = down))
    = Some down
  ∧ reduce (fun _ => false) = None.
Proof. done. Qed.

(** ** Outbound messages *)

(** C8.  With the socket not connected, [sendMoveCommand],
    [sendStopCommand] and [joinGame] send nothing and leave the whole
    client state as it is; nothing is queued, so when the socket opens
    afterwards only the join is sent.  Connected, each sends exactly one
    message. *)
Theorem send_when_connected s d :
  (connected s = false →
     sendMoveCommand d s = s ∧ sendStopCommand s = s ∧ joinGame s = s
     ∧ sent (handle ws_onopen (sendMoveCommand d s))
       = sent s ++ [out_join_game "Tim"])
  ∧ (connected s = true →
       sent (sendMoveCommand d s) = sent s ++ [out_move d]
       ∧ sent (sendStopCommand s) = sent s ++ [out_stop]
       ∧ sent (joinGame s) = sent s ++ [out_join_game "Tim"]).
Proof.
  unfold sendMoveCommand, sendStopCommand, joinGame.
  split; intros ->; done.
Qed.

Lemma send_when_connected_witness :
  (connected (init 800 600) = false
   ∧ sendMoveCommand up (init 800 600) = init 800 600
   ∧ sendStopCommand (init 800 600) = init 800 600
   ∧ joinGame (init 800 600) = init 800 600
   ∧ sent (handle ws_onopen (sendMoveCommand up (init 800 600)))
     = sent (init 800 600) ++ [out_join_game "Tim"])
  ∧ (connected (joinedAt 0 0) = true
     ∧ sent (sendMoveCommand up (joinedAt 0 0))
       = sent (joinedAt 0 0) ++ [out_move up]
     ∧ sent (sendStopCommand (joinedAt 0 0))
       = sent (joinedAt 0 0) ++ [out_stop]
     ∧ sent (joinGame (joinedAt 0 0))
       = sent (joinedAt 0 0) ++ [out_join_game "Tim"]).
Proof.
  split.
  - split; [reflexivity|].
    apply (proj1 (send_when_connected (init 800 600) up)). reflexivity.
  - split; [reflexivity|].
    apply (proj2 (send_when_connected (joinedAt 0 0) up)). reflexivity.
Defined.

(** ** The player store *)

(** C7.  [handlePlayerLeft] is a total function of the state and the id;
    applying it twice gives the state of applying it once, and for an id
    that is absent it leaves the store as it is (only the dirty flag is
    set). *)
Theorem handlePlayerLeft_idempotent s playerId :
  handlePlayerLeft playerId (handlePlayerLeft playerId s)
  = handlePlayerLeft playerId s
  ∧ getPlayer playerId (handlePlayerLeft playerId s) = None
  ∧ (JsMap.get playerId (players s) = None →
       handlePlayerLeft playerId s = set_needsRedraw true s).
Proof.
  unfold handlePlayerLeft, getPlayer. simpl. split; [|split].
  - by rewrite delete_delete.
  - by rewrite get_delete_eq.
  - intros H. rewrite delete_absent by done. by destruct s.
Qed.

Lemma handlePlayerLeft_idempotent_witness :
  JsMap.get "p2" (players playing) = None
  ∧ handlePlayerLeft "p2" playing = set_needsRedraw true playing.
Proof.
  split; [reflexivity|].
  apply (proj2 (proj2 (handlePlayerLeft_idempotent playing "p2"))).
  reflexivity.
Defined.

(** The reference [alloc_players] gives to the snapshot bound to [k]
    points at that snapshot in the grown object store. *)
Lemma obj_get_alloc (es : list (string * Player)) (base : nat) k :
  match Obj.get k es with
  | Some p =>
      ∃ i, Obj.get k (zip (map fst es) (seq base (length es)))
           = Some (base + i)%nat
           ∧ map snd es !! i = Some p
  | None => Obj.get k (zip (map fst es) (seq base (length es))) = None
  end.
Proof.
  revert base. induction es as [|[k' v] es IH]; intros base; simpl; [done|].
  specialize (IH (S base)).
  destruct (Obj.get k es) as [p|].
  - destruct IH as (i & -> & Hi). exists (S i). split; [f_equal; lia | done].
  - rewrite IH. destruct (decide (k' = k)); [|done].
    exists 0%nat. split; [f_equal; lia | done].
Qed.

Lemma getPlayer_handlePlayersMoved s es k :
  wf s →
  getPlayer k (handlePlayersMoved es s) =
  match Obj.get k es with
  | Some p => Some p
  | None => getPlayer k s
  end.
Proof.
  intros [Hpl _]. unfold getPlayer, handlePlayersMoved. simpl.
  rewrite get_set_all.
  pose proof (obj_get_alloc es (length (objects s)) k) as Halloc.
  destruct (Obj.get k es) as [p|].
  - destruct Halloc as (i & -> & Hi). simpl.
    rewrite lookup_app_r by lia.
    by replace (length (objects s) + i - length (objects s))%nat with i by lia.
  - rewrite Halloc. destruct (JsMap.get k (players s)) as [r|] eqn:Hr; [|done].
    simpl. apply lookup_app_l.
    by apply (get_refs_bound (fun r => (r < _)%nat) _ _ _ Hpl Hr).
Qed.

(** C5.  After [handlePlayersMoved], every id named in the message is
    bound to the incoming snapshot as a whole, and every other id is
    bound as before; so after [{A: snapA, B: snapB}] and then
    [{A: snapA2}], [A] is bound to [snapA2] and [B] to [snapB]. *)
Theorem handlePlayersMoved_upsert s es k A B snapA snapB snapA2 :
  wf s → A ≠ B →
  getPlayer k (handlePlayersMoved es s)
  = match Obj.get k es with
    | Some p => Some p
    | None => getPlayer k s
    end
  ∧ (let s2 := handlePlayersMoved [(A, snapA2)]
                 (handlePlayersMoved [(A, snapA); (B, snapB)] s) in
     getPlayer A s2 = Some snapA2 ∧ getPlayer B s2 = Some snapB).
Proof.
  intros Hwf Hne. split; [by apply getPlayer_handlePlayersMoved|].
  assert (wf (handlePlayersMoved [(A, snapA); (B, snapB)] s)) as Hwf1
    by by apply wf_handlePlayersMoved.
  simpl. rewrite !getPlayer_handlePlayersMoved by done. simpl.
  rewrite decide_True by done. split; [done|].
  rewrite decide_False by done. by rewrite decide_True.
Qed.

Lemma wf_playing : wf playing.
Proof.
  split.
  - vm_compute. repeat constructor.
  - vm_compute. intros r [= <-]. repeat constructor.
Defined.

Lemma handlePlayersMoved_upsert_witness :
  wf playing ∧ "p1" ≠ "p2"
  ∧ getPlayer "p2" (handlePlayersMoved [("p2", p1At 5 5 "east")] playing)
    = Some (p1At 5 5 "east")
  ∧ (let s2 := handlePlayersMoved [("p1", p1At 30 20 "west")]
                 (handlePlayersMoved
                    [("p1", p1At 10 20 "north"); ("p2", p1At 7 7 "east")]
                    playing) in
     getPlayer "p1" s2 = Some (p1At 30 20 "west")
     ∧ getPlayer "p2" s2 = Some (p1At 7 7 "east")).
Proof.
  split; [exact wf_playing|]. split; [done|].
  apply (handlePlayersMoved_upsert playing [("p2", p1At 5 5 "east")]
           "p2" "p1" "p2" (p1At 10 20 "north") (p1At 7 7 "east")
           (p1At 30 20 "west")).
  - exact wf_playing.
  - done.
Defined.

(** [handlePlayerJoined] on the descriptor map and the sprite cache. *)
Lemma handlePlayerJoined_avatars s p a :
  avatars (handlePlayerJoined p a s) = <[a_name a := a]> (avatars s)
  ∧ avatarImages (handlePlayerJoined p a s) = avatarImages s.
Proof. done. Qed.

(** C6, as the code has it.  [handlePlayerJoined] stores the
    accompanying descriptor under its name whether or not the kind is
    already known: a descriptor stored for that kind is replaced by the
    incoming one.  Descriptors of other kinds and the loaded sprite
    images are left as they are. *)
Theorem handlePlayerJoined_descriptor s p a :
  avatars (handlePlayerJoined p a s) !! a_name a = Some a
  ∧ (∀ kind, kind ≠ a_name a →
       avatars (handlePlayerJoined p a s) !! kind = avatars s !! kind)
  ∧ avatarImages (handlePlayerJoined p a s) = avatarImages s.
Proof.
  destruct (handlePlayerJoined_avatars s p a) as [-> ->].
  split; [apply lookup_insert_eq|]. split; [|done].
  intros kind Hne. by apply lookup_insert_ne.
Qed.

Lemma handlePlayerJoined_descriptor_witness :
  "wolf" ≠ a_name fox'
  ∧ avatars (handlePlayerJoined (p1At 0 0 "east") fox' playing) !! "wolf"
    = avatars playing !! "wolf".
Proof.
  split; [done|].
  apply (proj1 (proj2 (handlePlayerJoined_descriptor playing
                         (p1At 0 0 "east") fox'))).
  done.
Defined.

(** C6 fails as stated: the kind [fox] is known with descriptor [fox],
    and a [player_joined] carrying [fox'] under the same name replaces
    it. *)
Lemma stored_descriptor_replaced :
  avatars playing !! "fox" = Some fox
  ∧ a_name fox' = "fox"
  ∧ avatars (handle (ws_onmessage (in_player_joined (p1At 0 0 "east") fox'))
               playing) !! "fox"
    ≠ avatars playing !! "fox".
Proof. split; [by vm_compute|]. split; [done|]. by vm_compute. Qed.

(** ** The dirty flag *)

Lemma run_messages_cons m ms s :
  run (map ws_onmessage (m :: ms)) s
  = run (map ws_onmessage ms) (handleMessage m s).
Proof. done. Qed.

Lemma run_messages_frames ms s :
  frames (run (map ws_onmessage ms) s) = frames s.
Proof.
  revert s. induction ms as [|m ms IH]; intros s; [done|].
  rewrite run_messages_cons, IH. apply handleMessage_frames.
Qed.

Lemma run_messages_keep_dirty ms s :
  needsRedraw s = true → needsRedraw (run (map ws_onmessage ms) s) = true.
Proof.
  revert s. induction ms as [|m ms IH]; intros s Hs; [done|].
  rewrite run_messages_cons. by apply IH, handleMessage_keeps_dirty.
Qed.

Lemma run_mutations_dirty ms s :
  (1 ≤ length ms)%nat → forallb storeMutation ms = true →
  needsRedraw (run (map ws_onmessage ms) s) = true.
Proof.
  destruct ms as [|m ms]; [simpl; lia|]. intros _ Hall.
  apply andb_prop in Hall as [Hm _]. rewrite run_messages_cons.
  by apply run_messages_keep_dirty, handleMessage_dirty.
Qed.

Lemma renderTick_clean s : needsRedraw s = false → renderTick s = s.
Proof. unfold renderTick. by intros ->. Qed.

Lemma renderTick_dirty s :
  needsRedraw s = true →
  frames (renderTick s) = frames s ++ [render s]
  ∧ needsRedraw (renderTick s) = false.
Proof. unfold renderTick. by intros ->. Qed.

(** C4, as the code has it.  For every [N >= 1], [N] store mutations
    between two render ticks produce exactly one redraw: no handler
    draws, the tick after them draws one frame and clears the flag, and
    the tick after that draws nothing.  The tick draws only when the
    flag is set.  [handlePlayersMoved] sets the flag for every entity
    map, the empty one included. *)
Theorem dirty_flag_batching s N ms :
  (1 ≤ N)%nat → length ms = N → forallb storeMutation ms = true →
  let s' := run (map ws_onmessage ms) s in
  frames s' = frames s
  ∧ frames (renderTick s') = frames s ++ [render s']
  ∧ needsRedraw (renderTick s') = false
  ∧ renderTick (renderTick s') = renderTick s'
  ∧ (needsRedraw s = false → renderTick s = s)
  ∧ (∀ entities, needsRedraw (handlePlayersMoved entities s) = true).
Proof.
  intros HN Hlen Hall s'.
  assert (needsRedraw s' = true) as Hdirty
    by (apply run_mutations_dirty; [lia | done]).
  destruct (renderTick_dirty s' Hdirty) as [Hframes Hclean].
  assert (frames s' = frames s) as Hsame by apply run_messages_frames.
  split; [done|]. split; [by rewrite Hframes, Hsame|]. split; [done|].
  split; [by apply renderTick_clean|]. split; [apply renderTick_clean|done].
Qed.

Lemma dirty_flag_batching_witness :
  let ms := [in_players_moved [("p1", p1At 1030 1024 "east")];
             in_player_joined (p1At 5 5 "east") fox;
             in_player_left "p1"] in
  let s' := run (map ws_onmessage ms) playing in
  ((1 ≤ 3)%nat ∧ length ms = 3%nat ∧ forallb storeMutation ms = true)
  ∧ length (frames playing) = 1%nat
  ∧ length (frames s') = 1%nat
  ∧ length (frames (renderTick s')) = 2%nat
  ∧ length (frames (renderTick (renderTick s'))) = 2%nat.
Proof.
  intros ms s'.
  assert ((1 ≤ 3)%nat ∧ length ms = 3%nat ∧ forallb storeMutation ms = true)
    as Hyp by (split; [lia | split; reflexivity]).
  split; [exact Hyp|].
  destruct Hyp as (H1 & H2 & H3).
  destruct (dirty_flag_batching playing 3 ms H1 H2 H3)
    as (E1 & E2 & _ & E4 & _).
  fold s' in E1, E2, E4. rewrite E4, E2, E1.
  rewrite length_app. simpl. repeat split; reflexivity.
Defined.

(** C4 fails as stated: with the flag clear, a [players_moved] with an
    empty entity map sets it, and the next tick draws. *)
Lemma empty_upsert_marks_dirty :
  let s := handle (ws_onmessage (in_players_moved [])) playing in
  needsRedraw playing = false
  ∧ needsRedraw s ≠ needsRedraw playing
  ∧ length (frames (renderTick s)) = S (length (frames playing)).
Proof. by vm_compute. Qed.

(** ** The camera after a bulk move *)

(** [handlePlayersMoved] assigns neither the viewport nor [myPlayer]. *)
Lemma handlePlayersMoved_camera es s :
  viewportX (handlePlayersMoved es s) = viewportX s
  ∧ viewportY (handlePlayersMoved es s) = viewportY s
  ∧ myPlayer (handlePlayersMoved es s) = myPlayer s.
Proof. done. Qed.

(** The object [myPlayer] refers to is not the new snapshot. *)
Lemma handlePlayersMoved_myPlayerObj es s :
  wf s → myPlayerObj (handlePlayersMoved es s) = myPlayerObj s.
Proof.
  intros [_ Hmy]. unfold myPlayerObj, handlePlayersMoved. simpl.
  destruct (myPlayer s) as [r|]; [|done]. simpl.
  apply lookup_app_l. by apply Hmy.
Qed.

(** C1, evaluated.  [p1] joined at (1024, 1024) in a window of
    800 x 600 and a frame was drawn.  A [players_moved] naming [p1] at
    (1100, 1024) rebinds [p1] in the store and the next tick draws one
    frame; the viewport stays at (624, 724), where a recompute from the
    new snapshot gives 700 for x, and [myPlayer] still refers to the
    snapshot of the join, so [updateViewport] itself gives 624 again. *)
Theorem bulk_move_keeps_viewport :
  let moved := p1At 1100 1024 "east" in
  let s := handle (ws_onmessage (in_players_moved [("p1", moved)])) playing in
  myPlayerId playing = Some "p1"
  ∧ getPlayer "p1" s = Some moved
  ∧ frames (renderTick s) = frames playing ++ [render s]
  ∧ (viewportX playing == 624 ∧ viewportY playing == 724)
  ∧ (viewportX s == 624 ∧ viewportY s == 724)
  ∧ computeViewport_axis (p_x moved) (canvasWidth s) (worldWidth s) == 700
  ∧ myPlayerObj s = Some (p1At 1024 1024 "south")
  ∧ viewportX (updateViewport s) == 624.
Proof. by vm_compute. Qed.

(** ** West-facing sprites *)

(** The flip itself is a mirror: when the sprite cache holds one and the
    same image under the west key and the east key of a frame, the two
    sprites land mirrored about the screen x-coordinate. *)
Lemma drawAvatar_flip_mirrors s east_player x y img :
  p_facing east_player = "east" →
  is_Some (avatars s !! p_avatar east_player) →
  avatarImages s
    !! imageKey (p_avatar east_player) "east" (frameIndexOf east_player)
  = Some img →
  avatarImages s
    !! imageKey (p_avatar east_player) "west" (frameIndexOf east_player)
  = Some img →
  ∃ e w,
    placements (drawAvatar s east_player x y) (1, 1) [] = [e]
    ∧ placements (drawAvatar s (set_p_facing "west" east_player) x y) (1, 1) []
      = [w]
    ∧ mirrored x w e.
Proof.
  intros Hf [a Ha] He Hw. unfold drawAvatar. simpl.
  rewrite Ha, Hf. unfold frameIndexOf in *. simpl. rewrite He, Hw. simpl.
  eexists _, _. split; [reflexivity|]. split; [reflexivity|].
  unfold mirrored. simpl. repeat split; field.
Qed.

(** C9, evaluated.  The descriptor [fox] has frames for north, south
    and east, all loaded.  For two players that differ only in
    [facing], [drawAvatar] draws the east-facing one and makes no call
    for the west-facing one: its sprite is looked up under the key
    [fox_west_0], which no frame of the descriptor fills. *)
Theorem west_sprite_not_drawn :
  let east_player := p1At 1024 1024 "east" in
  let west_player := p1At 1024 1024 "west" in
  west_player = set_p_facing "west" east_player
  ∧ a_frames fox = [("north", ["fox-n0.png"]); ("south", ["fox-s0.png"]);
                    ("east", ["fox-e0.png"])]
  ∧ avatarImages playing !! "fox_east_0" = Some (fox32 "fox-e0.png")
  ∧ avatarImages playing !! "fox_west_0" = None
  ∧ drawAvatar playing east_player 400 300
    = [op_drawImage5 (fox32 "fox-e0.png")
         (400 - 32 / 2) (300 - 32 / (32 / 32) / 2) 32 (32 / (32 / 32))]
  ∧ drawAvatar playing west_player 400 300 = []
  ∧ placements (drawAvatar playing west_player 400 300) (1, 1) [] = [].
Proof. by vm_compute. Qed.

(** * Further properties of the client *)

(** ** Joining *)

Lemma deref_alloc (es : list (string * Player)) (objs : list Player) k :
  (Obj.get k (zip (map fst es) (seq (length objs) (length es)))
   ≫= fun r => (objs ++ map snd es) !! r)
  = Obj.get k es.
Proof.
  pose proof (obj_get_alloc es (length objs) k) as Halloc.
  destruct (Obj.get k es) as [p|].
  - destruct Halloc as (i & -> & Hi). simpl.
    rewrite lookup_app_r by lia.
    by replace (length objs + i - length objs)%nat with i by lia.
  - by rewrite Halloc.
Qed.

Lemma obj_get_set_all_nil {V} (es : list (string * V)) k :
  JsMap.get k (JsMap.set_all es []) = Obj.get k es.
Proof. rewrite get_set_all. by destruct (Obj.get k es). Qed.

Lemma avatars_storeAvatars es s k :
  avatars (storeAvatars es s) !! k
  = match Obj.get k es with
    | Some a => Some a
    | None => avatars s !! k
    end.
Proof.
  unfold storeAvatars. revert s.
  induction es as [|[k' a] es IH]; intros s; simpl; [done|].
  rewrite IH. destruct (Obj.get k es); [done|]. simpl.
  destruct (decide (k' = k)) as [->|Hne].
  - apply lookup_insert_eq.
  - by apply lookup_insert_ne.
Qed.

(** The store and the camera inputs after a successful join; [s1] is
    the state on which the handler calls [updateViewport]. *)
Lemma handleJoinGame_parts d s :
  jg_success d = true →
  ∃ s1,
    handleJoinGame d s = set_needsRedraw true (updateViewport s1)
    ∧ objects s1 = objects s ++ map snd (jg_players d)
    ∧ players s1
      = JsMap.set_all
          (zip (map fst (jg_players d))
             (seq (length (objects s)) (length (jg_players d)))) []
    ∧ myPlayer s1
      = Obj.get (jg_playerId d)
          (zip (map fst (jg_players d))
             (seq (length (objects s)) (length (jg_players d))))
    ∧ myPlayerId s1 = Some (jg_playerId d)
    ∧ (∀ kind, avatars s1 !! kind = Obj.get kind (jg_avatars d))
    ∧ canvasWidth s1 = canvasWidth s ∧ canvasHeight s1 = canvasHeight s
    ∧ worldWidth s1 = worldWidth s ∧ worldHeight s1 = worldHeight s
    ∧ viewportX s1 = viewportX s ∧ viewportY s1 = viewportY s.
Proof.
  intros Hok. rewrite handleJoinGame_success by done. unfold alloc_players.
  eexists. split; [reflexivity|].
  repeat split; try by rewrite storeAvatars_frame by done.
  intros kind. rewrite avatars_storeAvatars. simpl.
  destruct (Obj.get kind (jg_avatars d)); [done | apply lookup_empty].
Qed.

Lemma myPlayerObj_joined d s s1 :
  objects s1 = objects s ++ map snd (jg_players d) →
  myPlayer s1
  = Obj.get (jg_playerId d)
      (zip (map fst (jg_players d))
         (seq (length (objects s)) (length (jg_players d)))) →
  myPlayerObj s1 = Obj.get (jg_playerId d) (jg_players d).
Proof. intros Ho Hm. unfold myPlayerObj. rewrite Ho, Hm. apply deref_alloc. Qed.

(** X1.  A successful [join_game] replaces the store: afterwards the
    players are exactly those of the message, the descriptors are
    exactly those of the message, [myPlayer] is the object stored under
    the assigned id, and the flag is set.  Nothing of the previous store
    survives. *)
Theorem handleJoinGame_replaces d s :
  jg_success d = true →
  let s' := handleJoinGame d s in
  (∀ k, getPlayer k s' = Obj.get k (jg_players d))
  ∧ (∀ kind, avatars s' !! kind = Obj.get kind (jg_avatars d))
  ∧ myPlayerId s' = Some (jg_playerId d)
  ∧ myPlayerObj s' = getPlayer (jg_playerId d) s'
  ∧ needsRedraw s' = true.
Proof.
  intros Hok s'. subst s'.
  destruct (handleJoinGame_parts d s Hok)
    as (s1 & -> & Ho & Hp & Hm & Hid & Hav & _).
  assert (∀ k, getPlayer k (set_needsRedraw true (updateViewport s1))
               = Obj.get k (jg_players d)) as Hget.
  { intros k. unfold getPlayer. simpl.
    rewrite !updateViewport_frame by done.
    rewrite Hp, Ho, obj_get_set_all_nil. apply deref_alloc. }
  split; [exact Hget|]. split; [|split; [|split]].
  - intros kind. simpl. by rewrite updateViewport_frame by done.
  - simpl. by rewrite updateViewport_frame by done.
  - rewrite Hget. unfold myPlayerObj. simpl.
    rewrite !updateViewport_frame by done.
    by apply (myPlayerObj_joined d s s1).
  - done.
Qed.

Lemma handleJoinGame_replaces_witness :
  let d := mkJoinGameData true "p7" [("p7", p1At 3 4 "north")] [] "" in
  jg_success d = true
  ∧ getPlayer "p1" (handleJoinGame d playing) = None
  ∧ avatars (handleJoinGame d playing) !! "fox" = None
  ∧ myPlayerObj (handleJoinGame d playing) = Some (p1At 3 4 "north").
Proof.
  intros d. split; [reflexivity|].
  destruct (handleJoinGame_replaces d playing eq_refl)
    as (Hp & Ha & _ & Hmy & _).
  split; [apply (Hp "p1")|]. split; [apply (Ha "fox")|].
  rewrite Hmy. apply (Hp "p7").
Defined.

Lemma updateViewport_tracked s p :
  myPlayerObj s = Some p →
  viewportX (updateViewport s)
  == computeViewport_axis (p_x p) (canvasWidth s) (worldWidth s)
  ∧ viewportY (updateViewport s)
    == computeViewport_axis (p_y p) (canvasHeight s) (worldHeight s).
Proof.
  intros Hp. unfold updateViewport. rewrite Hp. simpl.
  split; apply clamp_viewport.
Qed.

Lemma updateViewport_untracked s :
  myPlayerObj s = None → updateViewport s = s.
Proof. intros H. unfold updateViewport. by rewrite H. Qed.

(** X2.  The camera after a successful join: when the assigned id names
    a player of the message, the viewport is centred on that player and
    clamped, for the canvas size at that moment; when it names none,
    [myPlayer] is unset and the viewport stays where it was. *)
Theorem handleJoinGame_camera d s :
  jg_success d = true →
  let s' := handleJoinGame d s in
  match Obj.get (jg_playerId d) (jg_players d) with
  | Some p =>
      viewportX s' == computeViewport_axis (p_x p) (canvasWidth s) (worldWidth s)
      ∧ viewportY s'
        == computeViewport_axis (p_y p) (canvasHeight s) (worldHeight s)
  | None =>
      myPlayerObj s' = None
      ∧ viewportX s' = viewportX s ∧ viewportY s' = viewportY s
  end.
Proof.
  intros Hok s'. subst s'.
  destruct (handleJoinGame_parts d s Hok)
    as (s1 & -> & Ho & _ & Hm & _ & _ & Hcw & Hch & Hww & Hwh & Hvx & Hvy).
  pose proof (myPlayerObj_joined d s s1 Ho Hm) as Hobj.
  destruct (Obj.get (jg_playerId d) (jg_players d)) as [p|].
  - simpl. rewrite <- Hcw, <- Hch, <- Hww, <- Hwh.
    by apply updateViewport_tracked.
  - rewrite updateViewport_untracked by done. simpl.
    split; [|by split]. unfold myPlayerObj in *. by simpl.
Qed.

Lemma handleJoinGame_camera_witness :
  let d := mkJoinGameData true "p9" [("p7", p1At 3 4 "north")] [] "" in
  jg_success d = true
  ∧ myPlayerObj (handleJoinGame d playing) = None
  ∧ viewportX (handleJoinGame d playing) = viewportX playing
  ∧ viewportY (handleJoinGame d playing) = viewportY playing.
Proof.
  intros d. split; [reflexivity|].
  apply (handleJoinGame_camera d playing eq_refl).
Defined.

(** ** One player joining and leaving *)

Lemma getPlayer_handlePlayerJoined p a s k :
  wf s →
  getPlayer k (handlePlayerJoined p a s)
  = if decide (k = p_id p) then Some p else getPlayer k s.
Proof.
  intros [Hpl _]. unfold getPlayer, handlePlayerJoined. simpl.
  destruct (decide (k = p_id p)) as [->|Hne].
  - rewrite get_set_eq. simpl. rewrite lookup_app_r by lia.
    by rewrite Nat.sub_diag.
  - rewrite get_set_ne by done.
    destruct (JsMap.get k (players s)) as [r|] eqn:Hr; [|done]. simpl.
    apply lookup_app_l.
    by apply (get_refs_bound (fun r => (r < _)%nat) _ _ _ Hpl Hr).
Qed.

Lemma getPlayer_handlePlayerLeft i s k :
  getPlayer k (handlePlayerLeft i s)
  = if decide (k = i) then None else getPlayer k s.
Proof.
  unfold getPlayer, handlePlayerLeft. simpl.
  destruct (decide (k = i)) as [->|Hne].
  - by rewrite get_delete_eq.
  - by rewrite get_delete_ne.
Qed.

(** X3.  [handlePlayerJoined] binds the id of the incoming player to the
    incoming snapshot, replacing a player already stored under that id,
    and leaves every other id bound as before. *)
Theorem handlePlayerJoined_lookup p a s k :
  wf s →
  getPlayer (p_id p) (handlePlayerJoined p a s) = Some p
  ∧ (k ≠ p_id p → getPlayer k (handlePlayerJoined p a s) = getPlayer k s).
Proof.
  intros Hwf. split.
  - rewrite getPlayer_handlePlayerJoined by done. by rewrite decide_True.
  - intros Hne. rewrite getPlayer_handlePlayerJoined by done.
    by rewrite decide_False.
Qed.

Lemma handlePlayerJoined_lookup_witness :
  wf playing
  ∧ getPlayer "p1" (handlePlayerJoined (p1At 9 9 "north") fox' playing)
    = Some (p1At 9 9 "north")
  ∧ ("p2" ≠ "p1" →
     getPlayer "p2" (handlePlayerJoined (p1At 9 9 "north") fox' playing)
     = getPlayer "p2" playing).
Proof.
  split; [exact wf_playing|].
  apply (handlePlayerJoined_lookup (p1At 9 9 "north") fox' playing "p2").
  exact wf_playing.
Defined.

(** X4.  [handlePlayerLeft] unbinds the id and nothing else: every other
    id is bound as before, and [myPlayer] and the viewport are left
    alone even when the id is the tracked player's, so the camera keeps
    following the removed object.  A player that joins and leaves again
    leaves all other lookups as they were. *)
Theorem handlePlayerLeft_frame i s k p a :
  wf s →
  getPlayer k (handlePlayerLeft i s)
  = (if decide (k = i) then None else getPlayer k s)
  ∧ myPlayerObj (handlePlayerLeft i s) = myPlayerObj s
  ∧ updateViewport (handlePlayerLeft i s)
    = handlePlayerLeft i (updateViewport s)
  ∧ getPlayer k (handlePlayerLeft (p_id p) (handlePlayerJoined p a s))
    = (if decide (k = p_id p) then None else getPlayer k s).
Proof.
  intros Hwf. split; [apply getPlayer_handlePlayerLeft|]. split; [done|].
  split.
  - unfold updateViewport.
    change (myPlayerObj (handlePlayerLeft i s)) with (myPlayerObj s).
    by destruct (myPlayerObj s).
  - rewrite getPlayer_handlePlayerLeft.
    destruct (decide (k = p_id p)) as [->|Hne]; [done|].
    rewrite getPlayer_handlePlayerJoined by done. by rewrite decide_False.
Qed.

Lemma handlePlayerLeft_frame_witness :
  wf playing
  ∧ getPlayer "p1" (handlePlayerLeft "p1" playing) = None
  ∧ myPlayerObj (handlePlayerLeft "p1" playing)
    = Some (p1At 1024 1024 "south").
Proof.
  split; [exact wf_playing|].
  destruct (handlePlayerLeft_frame "p1" playing "p1" (p1At 0 0 "east") fox
              wf_playing) as (H1 & H2 & _).
  split; [exact H1|]. rewrite H2. reflexivity.
Defined.

(** ** Iteration order of the players *)

Lemma keys_set_prefix {V} (m : list (string * V)) k v :
  JsMap.keys m `prefix_of` JsMap.keys (JsMap.set k v m).
Proof.
  rewrite keys_set. destruct (JsMap.has k m); [done|].
  by apply prefix_app_r.
Qed.

Lemma keys_set_all_prefix {V} (es m : list (string * V)) :
  JsMap.keys m `prefix_of` JsMap.keys (JsMap.set_all es m).
Proof.
  unfold JsMap.set_all. revert m.
  induction es as [|[k v] es IH]; intros m; simpl; [done|].
  etrans; [apply (keys_set_prefix m k v) | apply IH].
Qed.

Lemma keys_delete {V} (m : list (string * V)) k :
  JsMap.keys (JsMap.delete k m)
  = List.filter (fun k' => negb (bool_decide (k' = k))) (JsMap.keys m).
Proof.
  unfold JsMap.keys. induction m as [|[k' v'] m IH]; simpl; [done|].
  destruct (decide (k' = k)) as [->|Hne].
  - by rewrite bool_decide_eq_true_2.
  - rewrite bool_decide_eq_false_2 by done. simpl. by rewrite IH.
Qed.

(** X5.  The order in which [drawPlayers] and [drawMinimap] visit the
    players is stable: a bulk move and a single join keep the stored ids
    in their order and put new ids after them, and a removal takes the
    id out without moving the others. *)
Theorem players_order_stable s es p a i :
  JsMap.keys (players s)
    `prefix_of` JsMap.keys (players (handlePlayersMoved es s))
  ∧ JsMap.keys (players s)
      `prefix_of` JsMap.keys (players (handlePlayerJoined p a s))
  ∧ JsMap.keys (players (handlePlayerLeft i s))
    = List.filter (fun k => negb (bool_decide (k = i)))
        (JsMap.keys (players s)).
Proof.
  split; [apply keys_set_all_prefix|].
  split; [apply keys_set_prefix | apply keys_delete].
Qed.

(** ** Keys *)

Lemma sendMoveCommand_frame {A} (f : GameClient → A) :
  (∀ v s, f (set_sent v s) = f s) →
  ∀ d s, f (sendMoveCommand d s) = f s.
Proof.
  intros H d s. unfold sendMoveCommand, ws_send.
  destruct (connected s); simpl; [apply H | done].
Qed.

Lemma sendStopCommand_frame {A} (f : GameClient → A) :
  (∀ v s, f (set_sent v s) = f s) →
  ∀ s, f (sendStopCommand s) = f s.
Proof.
  intros H s. unfold sendStopCommand, ws_send.
  destruct (connected s); simpl; [apply H | done].
Qed.

(** [updateMovement] assigns only [sent], [isMoving], the facing of the
    tracked object, the flag and the viewport. *)
Lemma updateMovement_frame {A} (f : GameClient → A) :
  (∀ v s, f (set_sent v s) = f s) →
  (∀ v s, f (set_isMoving v s) = f s) →
  (∀ v s, f (set_objects v s) = f s) →
  (∀ v s, f (set_needsRedraw v s) = f s) →
  (∀ v s, f (set_viewportX v s) = f s) →
  (∀ v s, f (set_viewportY v s) = f s) →
  ∀ s, f (updateMovement s) = f s.
Proof.
  intros Hs Hm Ho Hn Hx Hy s. unfold updateMovement.
  destruct (getMovementDirections s) as [|d ds].
  - by rewrite Hm, sendStopCommand_frame.
  - rewrite updateViewport_frame, updatePlayerFacing_frame by done.
    by rewrite Hm, sendMoveCommand_frame.
Qed.

Lemma updateMovement_sent s :
  sent (updateMovement s)
  = sent s ++ (if connected s then [intentMessage (reduce (held s))] else []).
Proof.
  rewrite <- getMovementDirections_head. unfold updateMovement.
  destruct (getMovementDirections s) as [|d ds]; simpl.
  - unfold sendStopCommand. destruct (connected s); simpl; [done|].
    by rewrite app_nil_r.
  - rewrite sent_updateViewport, sent_updatePlayerFacing. simpl.
    unfold sendMoveCommand. destruct (connected s); simpl; [done|].
    by rewrite app_nil_r.
Qed.

Lemma reduce_held_keys s1 s2 :
  pressedKeys s1 = pressedKeys s2 → reduce (held s1) = reduce (held s2).
Proof. intros H. unfold reduce, held, priority. simpl. by rewrite H. Qed.

Lemma not_shift_test code :
  code ≠ "ShiftLeft" → code ≠ "ShiftRight" →
  bool_decide (code = "ShiftLeft") || bool_decide (code = "ShiftRight")
  = false.
Proof. intros H1 H2. by rewrite !bool_decide_eq_false_2. Qed.

Lemma handleKeyDown_arrow code s :
  code ≠ "ShiftLeft" → code ≠ "ShiftRight" →
  handleKeyDown code s
  = if bool_decide (code ∈ pressedKeys s) then s
    else updateMovement (set_pressedKeys ({[code]} ∪ pressedKeys s) s).
Proof. intros H1 H2. unfold handleKeyDown. by rewrite not_shift_test. Qed.

Lemma handleKeyDown_held code s :
  code ≠ "ShiftLeft" → code ≠ "ShiftRight" →
  code ∈ pressedKeys (handleKeyDown code s).
Proof.
  intros H1 H2. rewrite handleKeyDown_arrow by done.
  destruct (bool_decide (code ∈ pressedKeys s)) eqn:Hheld.
  - by apply bool_decide_eq_true in Hheld.
  - rewrite updateMovement_frame by done. simpl. set_solver.
Qed.

(** X6.  A repeated [keydown] of a key that is already held (keyboard
    auto-repeat) changes nothing and sends nothing: [handleKeyDown] on
    the state it produced gives that state back. *)
Theorem handleKeyDown_repeat code s :
  code ≠ "ShiftLeft" → code ≠ "ShiftRight" →
  handleKeyDown code (handleKeyDown code s) = handleKeyDown code s.
Proof.
  intros H1 H2. rewrite (handleKeyDown_arrow code (handleKeyDown code s))
    by done.
  rewrite bool_decide_eq_true_2; [done | by apply handleKeyDown_held].
Qed.

Lemma handleKeyDown_repeat_witness :
  "ArrowUp" ≠ "ShiftLeft" ∧ "ArrowUp" ≠ "ShiftRight"
  ∧ handleKeyDown "ArrowUp" (handleKeyDown "ArrowUp" playing)
    = handleKeyDown "ArrowUp" playing.
Proof.
  split; [done|]. split; [done|].
  apply (handleKeyDown_repeat "ArrowUp" playing); done.
Defined.

(** X7.  The Shift keys only toggle the speed mode: a [keydown] of
    either flips [isRunning], sends nothing and never enters the held
    set, and two of them restore the state exactly. *)
Theorem handleKeyDown_shift code s :
  code = "ShiftLeft" ∨ code = "ShiftRight" →
  isRunning (handleKeyDown code s) = negb (isRunning s)
  ∧ sent (handleKeyDown code s) = sent s
  ∧ pressedKeys (handleKeyDown code s) = pressedKeys s
  ∧ handleKeyDown code (handleKeyDown code s) = s.
Proof.
  intros Hc.
  assert (∀ s', handleKeyDown code s' = toggleSpeed s') as Hkd.
  { intros s'. unfold handleKeyDown. by destruct Hc as [-> | ->]. }
  rewrite !Hkd. repeat split.
  unfold toggleSpeed. destruct s. simpl. by rewrite negb_involutive.
Qed.

Lemma handleKeyDown_shift_witness :
  ("ShiftRight" = "ShiftLeft" ∨ "ShiftRight" = "ShiftRight")
  ∧ isRunning (handleKeyDown "ShiftRight" playing) = true
  ∧ handleKeyDown "ShiftRight" (handleKeyDown "ShiftRight" playing) = playing.
Proof.
  assert ("ShiftRight" = "ShiftLeft" ∨ "ShiftRight" = "ShiftRight") as H
    by (right; reflexivity).
  split; [exact H|].
  destruct (handleKeyDown_shift "ShiftRight" playing H) as (H1 & _ & _ & H4).
  split; [exact H1 | exact H4].
Defined.

Lemma press_release_keys (K : gset string) code :
  code ∉ K → ({[code]} ∪ K) ∖ {[code]} = K.
Proof.
  intros Hnot. apply set_eq. intros k.
  rewrite elem_of_difference, elem_of_union, elem_of_singleton. split.
  - intros [[->|Hk] Hne]; done.
  - intros Hk. split; [by right|]. by intros ->.
Qed.

(** X8.  Pressing and then releasing a key that was not held restores
    the held set, and while connected it sends exactly two messages:
    the intent with the key held, then the intent of the keys held
    before. *)
Theorem key_press_release code s :
  code ≠ "ShiftLeft" → code ≠ "ShiftRight" → code ∉ pressedKeys s →
  let s1 := handleKeyDown code s in
  let s2 := handleKeyUp code s1 in
  pressedKeys s2 = pressedKeys s
  ∧ (connected s = true →
     sent s2
     = sent s ++ [intentMessage (reduce (held s1));
                  intentMessage (reduce (held s))]).
Proof.
  intros H1 H2 Hnot s1 s2.
  assert (s1 = updateMovement
                 (set_pressedKeys ({[code]} ∪ pressedKeys s) s)) as Hs1.
  { subst s1. rewrite handleKeyDown_arrow by done.
    by rewrite bool_decide_eq_false_2. }
  assert (pressedKeys s1 = {[code]} ∪ pressedKeys s) as Hk1.
  { rewrite Hs1. by rewrite updateMovement_frame by done. }
  assert (pressedKeys s2 = pressedKeys s) as Hk2.
  { subst s2. unfold handleKeyUp. rewrite updateMovement_frame by done.
    simpl. rewrite Hk1. by apply press_release_keys. }
  split; [exact Hk2|]. intros Hconn.
  assert (connected s1 = true) as Hc1.
  { rewrite Hs1. by rewrite updateMovement_frame by done. }
  assert (sent s1 = sent s ++ [intentMessage (reduce (held s1))]) as Hsent1.
  { rewrite Hs1 at 1. rewrite updateMovement_sent. simpl. rewrite Hconn.
    do 3 f_equal. apply reduce_held_keys. by rewrite Hk1. }
  subst s2. unfold handleKeyUp. rewrite updateMovement_sent. simpl.
  rewrite Hc1, Hsent1, <- app_assoc. simpl. do 4 f_equal.
  apply reduce_held_keys. simpl. rewrite Hk1. by apply press_release_keys.
Qed.

Lemma key_press_release_witness :
  let s1 := handleKeyDown "ArrowRight" playing in
  let s2 := handleKeyUp "ArrowRight" s1 in
  ("ArrowRight" ≠ "ShiftLeft" ∧ "ArrowRight" ≠ "ShiftRight"
   ∧ ("ArrowRight" ∉ pressedKeys playing) ∧ connected playing = true)
  ∧ pressedKeys s2 = pressedKeys playing
  ∧ sent s2 = sent playing ++ [out_move right; out_stop].
Proof.
  intros s1 s2.
  assert ("ArrowRight" ∉ pressedKeys playing) as Hnot by (by vm_compute).
  split; [repeat split; done|].
  destruct (key_press_release "ArrowRight" playing
              ltac:(done) ltac:(done) Hnot) as [Hk Hs].
  split; [exact Hk | exact (Hs eq_refl)].
Defined.

Lemma reduce_None heldIntents :
  reduce heldIntents = None ↔ ∀ d, heldIntents d = false.
Proof.
  unfold reduce, priority. simpl. split.
  - intros H [| | |];
      destruct (heldIntents up), (heldIntents down), (heldIntents left),
        (heldIntents right); done.
  - intros H. by rewrite !H.
Qed.

Lemma reduce_Some heldIntents d :
  reduce heldIntents = Some d → heldIntents d = true.
Proof.
  unfold reduce. intros H. by apply find_some in H as [_ H].
Qed.

Lemma updateMovement_isMoving s :
  isMoving (updateMovement s)
  = match reduce (held s) with Some _ => true | None => false end.
Proof.
  rewrite <- getMovementDirections_head. unfold updateMovement.
  destruct (getMovementDirections s) as [|d ds]; simpl; [done|].
  by rewrite updateViewport_frame, updatePlayerFacing_frame by done.
Qed.

Lemma updateMovement_held s d : held (updateMovement s) d = held s d.
Proof. unfold held. by rewrite updateMovement_frame by done. Qed.

(** X9.  Every [keyup] transmits while connected, whatever the key and
    whether or not it was held: exactly one message, the intent of the
    keys still held.  When no arrow key remains held, the message is
    [stop] and [isMoving] is cleared. *)
Theorem handleKeyUp_sends code s :
  connected s = true →
  let s' := handleKeyUp code s in
  sent s' = sent s ++ [intentMessage (reduce (held s'))]
  ∧ ((∀ d, arrowKey d ∉ pressedKeys s ∖ {[code]}) →
     sent s' = sent s ++ [out_stop] ∧ isMoving s' = false).
Proof.
  intros Hconn s'. subst s'. unfold handleKeyUp.
  set (s0 := set_pressedKeys (pressedKeys s ∖ {[code]}) s).
  assert (reduce (held (updateMovement s0)) = reduce (held s0)) as Hred.
  { apply reduce_held_keys. by rewrite updateMovement_frame by done. }
  assert (sent (updateMovement s0)
          = sent s ++ [intentMessage (reduce (held s0))]) as Hsent.
  { rewrite updateMovement_sent. subst s0. simpl. by rewrite Hconn. }
  split; [by rewrite Hred|]. intros Hnone.
  assert (reduce (held s0) = None) as Hstop.
  { apply reduce_None. intros d. unfold held. subst s0. simpl.
    apply bool_decide_eq_false_2, Hnone. }
  rewrite Hsent, updateMovement_isMoving, Hstop. done.
Qed.

Lemma handleKeyUp_sends_witness :
  connected playing = true
  ∧ sent (handleKeyUp "ShiftLeft" playing) = sent playing ++ [out_stop]
  ∧ isMoving (handleKeyUp "ShiftLeft" playing) = false.
Proof.
  split; [reflexivity|].
  apply (proj2 (handleKeyUp_sends "ShiftLeft" playing eq_refl)).
  intros d. by vm_compute.
Defined.

(** X10.  After every run of [updateMovement], [isMoving] says whether
    an arrow key is held. *)
Theorem isMoving_iff_held s :
  isMoving (updateMovement s) = true
  ↔ ∃ d, arrowKey d ∈ pressedKeys (updateMovement s).
Proof.
  rewrite updateMovement_isMoving. split.
  - destruct (reduce (held s)) as [d|] eqn:Hred; [|done]. intros _.
    exists d. apply reduce_Some in Hred.
    rewrite <- updateMovement_held in Hred.
    by apply bool_decide_eq_true in Hred.
  - intros [d Hd]. destruct (reduce (held s)) as [d'|] eqn:Hred; [done|].
    apply (proj1 (reduce_None _)) with (d := d) in Hred.
    rewrite <- updateMovement_held in Hred.
    apply bool_decide_eq_false in Hred. done.
Qed.

(** ** Facing prediction *)

Lemma myPlayerObj_updatePlayerFacing d s :
  myPlayerObj (updatePlayerFacing d s)
  = set_p_facing (directionMap d) <$> myPlayerObj s.
Proof.
  unfold updatePlayerFacing, myPlayerObj.
  destruct (myPlayer s) as [r|] eqn:Hr; simpl; [|by rewrite Hr].
  destruct (objects s !! r) as [p|] eqn:Hp; simpl.
  - rewrite Hr. simpl. rewrite list_lookup_insert_eq; [done|].
    by apply lookup_lt_Some in Hp.
  - rewrite Hr. simpl. by rewrite Hp.
Qed.

Lemma objects_updatePlayerFacing_other d s r' :
  myPlayer s ≠ Some r' →
  objects (updatePlayerFacing d s) !! r' = objects s !! r'.
Proof.
  intros Hne. unfold updatePlayerFacing.
  destruct (myPlayer s) as [r|]; [|done].
  destruct (objects s !! r) as [p|]; [|done]. simpl.
  apply list_lookup_insert_ne. congruence.
Qed.

(** X11.  Local prediction touches the facing only.  With a direction
    held, [updateMovement] sets the facing of the object [myPlayer]
    refers to ([up] to north, [down] to south, [left] to west, [right]
    to east) and of no other object, leaves its position alone, and so
    computes the same viewport as [updateViewport] does on the state
    before.  With no direction held it changes no object and no
    viewport. *)
Theorem updateMovement_prediction s :
  match reduce (held s) with
  | Some d =>
      myPlayerObj (updateMovement s)
      = set_p_facing (directionMap d) <$> myPlayerObj s
      ∧ (∀ r, myPlayer s ≠ Some r →
              objects (updateMovement s) !! r = objects s !! r)
      ∧ viewportX (updateMovement s) = viewportX (updateViewport s)
      ∧ viewportY (updateMovement s) = viewportY (updateViewport s)
  | None =>
      objects (updateMovement s) = objects s
      ∧ viewportX (updateMovement s) = viewportX s
      ∧ viewportY (updateMovement s) = viewportY s
  end.
Proof.
  rewrite <- getMovementDirections_head. unfold updateMovement.
  destruct (getMovementDirections s) as [|d ds]; simpl.
  - by rewrite !sendStopCommand_frame.
  - set (s0 := set_isMoving true (sendMoveCommand d s)).
    assert (myPlayerObj s0 = myPlayerObj s) as Hobj.
    { subst s0. unfold myPlayerObj. simpl.
      by rewrite !sendMoveCommand_frame by done. }
    assert (myPlayer s0 = myPlayer s) as Hmy.
    { subst s0. simpl. by rewrite sendMoveCommand_frame by done. }
    assert (objects s0 = objects s) as Hos.
    { subst s0. simpl. by rewrite sendMoveCommand_frame by done. }
    split; [|split].
    + rewrite (updateViewport_frame myPlayerObj) by done.
      by rewrite myPlayerObj_updatePlayerFacing, Hobj.
    + intros r Hr. rewrite updateViewport_frame by done.
      rewrite objects_updatePlayerFacing_other by by rewrite Hmy.
      by rewrite Hos.
    + unfold updateViewport.
      rewrite myPlayerObj_updatePlayerFacing, Hobj.
      destruct (myPlayerObj s) as [p|] eqn:Hp; simpl.
      * rewrite !updatePlayerFacing_frame by done. subst s0. simpl.
        by rewrite !sendMoveCommand_frame by done.
      * rewrite !updatePlayerFacing_frame by done. subst s0. simpl.
        by rewrite !sendMoveCommand_frame by done.
Qed.

(** ** Camera and canvas size *)

Lemma viewport_updateViewport s p :
  myPlayerObj s = Some p →
  viewportX (updateViewport s)
  = Qmax 0 (Qmin (p_x p - canvasWidth s / 2) (worldWidth s - canvasWidth s))
  ∧ viewportY (updateViewport s)
    = Qmax 0
        (Qmin (p_y p - canvasHeight s / 2) (worldHeight s - canvasHeight s)).
Proof. intros Hp. unfold updateViewport. by rewrite Hp. Qed.

(** X12.  [resizeCanvas] takes the window size for the canvas, fixes the
    minimap at 200 x 200, sets the flag, and recomputes the viewport for
    the new size when a player is tracked; without one the viewport
    stays. *)
Theorem resizeCanvas_viewport w h s :
  let s' := resizeCanvas w h s in
  canvasWidth s' = w ∧ canvasHeight s' = h
  ∧ minimapWidth s' = 200 ∧ minimapHeight s' = 200
  ∧ needsRedraw s' = true
  ∧ match myPlayerObj s with
    | Some p =>
        viewportX s' == computeViewport_axis (p_x p) w (worldWidth s)
        ∧ viewportY s' == computeViewport_axis (p_y p) h (worldHeight s)
    | None => viewportX s' = viewportX s ∧ viewportY s' = viewportY s
    end.
Proof.
  intros s'. subst s'. unfold resizeCanvas.
  set (s0 := set_minimapHeight 200
               (set_minimapWidth 200
                  (set_canvasHeight h (set_canvasWidth w s)))).
  assert (myPlayerObj s0 = myPlayerObj s) as Hobj by done.
  assert ((match myPlayer s0 with
           | Some _ => updateViewport s0
           | None => s0
           end) = updateViewport s0) as ->.
  { destruct (myPlayer s0) eqn:Hm; [done|].
    unfold updateViewport, myPlayerObj. by rewrite Hm. }
  simpl. rewrite !updateViewport_frame by done. simpl.
  repeat (split; [done|]).
  destruct (myPlayerObj s) as [p|] eqn:Hp.
  - apply (updateViewport_tracked s0 p). by rewrite Hobj.
  - rewrite updateViewport_untracked by by rewrite Hobj. done.
Qed.

Lemma resizeCanvas_eq w h s :
  resizeCanvas w h s
  = set_needsRedraw true
      (updateViewport
         (set_minimapHeight 200
            (set_minimapWidth 200
               (set_canvasHeight h (set_canvasWidth w s))))).
Proof.
  unfold resizeCanvas.
  set (s0 := set_minimapHeight 200
               (set_minimapWidth 200
                  (set_canvasHeight h (set_canvasWidth w s)))).
  destruct (myPlayer s0) eqn:Hm; [done|].
  unfold updateViewport, myPlayerObj. by rewrite Hm.
Qed.

Lemma updateViewport_Some s p :
  myPlayerObj s = Some p →
  updateViewport s
  = set_viewportY
      (Qmax 0
         (Qmin (p_y p - canvasHeight s / 2) (worldHeight s - canvasHeight s)))
      (set_viewportX
         (Qmax 0
            (Qmin (p_x p - canvasWidth s / 2) (worldWidth s - canvasWidth s)))
         s).
Proof. intros Hp. unfold updateViewport. rewrite Hp. by destruct s. Qed.

(** Evaluate the field assignments on an explicit state. *)
Ltac norm_state :=
  cbv [set_canvasWidth set_canvasHeight set_minimapWidth set_minimapHeight
       set_needsRedraw set_viewportX set_viewportY
       canvasWidth canvasHeight minimapWidth minimapHeight minimapScale
       worldImage worldWidth worldHeight connected myPlayerId myPlayer
       objects players avatars avatarImages viewportX viewportY avatarSize
       needsRedraw pressedKeys isMoving isRunning sent imageRequests frames
       errorScreens].

(** X13.  Recomputing is idempotent: a second [updateViewport], and a
    second [resizeCanvas] to the same size, give the same state. *)
Theorem recompute_idempotent w h s :
  updateViewport (updateViewport s) = updateViewport s
  ∧ resizeCanvas w h (resizeCanvas w h s) = resizeCanvas w h s.
Proof.
  split.
  - destruct (myPlayerObj s) as [p|] eqn:Hp.
    + rewrite (updateViewport_Some s p Hp).
      rewrite (updateViewport_Some _ p) by exact Hp.
      destruct s. norm_state. reflexivity.
    + by rewrite !(updateViewport_untracked s Hp).
  - rewrite !resizeCanvas_eq.
    set (s0 := set_minimapHeight 200
                 (set_minimapWidth 200
                    (set_canvasHeight h (set_canvasWidth w s)))).
    destruct (myPlayerObj s) as [p|] eqn:Hp.
    + rewrite (updateViewport_Some s0 p) by exact Hp.
      rewrite (updateViewport_Some _ p) by exact Hp.
      subst s0. destruct s. norm_state. reflexivity.
    + rewrite (updateViewport_untracked s0) by exact Hp.
      rewrite updateViewport_untracked by exact Hp.
      subst s0. destruct s. norm_state. reflexivity.
Qed.

Lemma viewport_nonneg_updateViewport s :
  0 <= viewportX s ∧ 0 <= viewportY s →
  0 <= viewportX (updateViewport s) ∧ 0 <= viewportY (updateViewport s).
Proof.
  intros H. destruct (myPlayerObj s) as [p|] eqn:Hp.
  - destruct (viewport_updateViewport s p Hp) as [-> ->].
    split; apply Q.le_max_l.
  - by rewrite updateViewport_untracked.
Qed.

Lemma viewport_nonneg_handle e s :
  0 <= viewportX s ∧ 0 <= viewportY s →
  0 <= viewportX (handle e s) ∧ 0 <= viewportY (handle e s).
Proof.
  intros H. destruct e as [|m| |c|c|w h| |w h|k img| |]; simpl; try done.
  - destruct m as [d|ps|p a|i|a]; simpl; try done.
    unfold handleJoinGame. destruct (jg_success d); [|done]. simpl.
    apply viewport_nonneg_updateViewport.
    by rewrite !storeAvatars_frame by done.
  - unfold handleKeyDown. destruct (_ || _); [done|].
    destruct (bool_decide _); [done|]. unfold updateMovement.
    destruct (getMovementDirections _); simpl.
    + by rewrite !sendStopCommand_frame by done.
    + apply viewport_nonneg_updateViewport.
      rewrite !updatePlayerFacing_frame by done. simpl.
      by rewrite !sendMoveCommand_frame by done.
  - unfold handleKeyUp, updateMovement.
    destruct (getMovementDirections _); simpl.
    + by rewrite !sendStopCommand_frame by done.
    + apply viewport_nonneg_updateViewport.
      rewrite !updatePlayerFacing_frame by done. simpl.
      by rewrite !sendMoveCommand_frame by done.
  - destruct (myPlayer s); [|done]. apply viewport_nonneg_updateViewport.
    exact H.
  - unfold renderTick. by destruct (needsRedraw s).
Qed.

(** X14.  In every state the client can reach, whatever the window
    sizes and the positions the server sends, the viewport's top-left
    corner has no negative coordinate. *)
Theorem viewport_never_negative s :
  reachable s → 0 <= viewportX s ∧ 0 <= viewportY s.
Proof.
  intros (w & h & es & ->). unfold run.
  assert (0 <= viewportX (init w h) ∧ 0 <= viewportY (init w h)) as Hinit
    by (split; apply Qle_refl).
  revert Hinit. generalize (init w h).
  induction es as [|e es IH]; intros s Hs; simpl; [done|].
  by apply IH, viewport_nonneg_handle.
Qed.

Lemma viewport_never_negative_witness :
  reachable playing ∧ 0 <= viewportX playing ∧ 0 <= viewportY playing.
Proof.
  assert (reachable playing) as H.
  { exists 800, 600,
      [ws_onopen; ws_onmessage (joinResult 1024 1024);
       image_onload "fox_north_0" (fox32 "fox-n0.png");
       image_onload "fox_south_0" (fox32 "fox-s0.png");
       image_onload "fox_east_0" (fox32 "fox-e0.png");
       images_onload; animationFrame].
    vm_compute. reflexivity. }
  split; [exact H | exact (viewport_never_negative playing H)].
Defined.

(** ** Where the tracked player is drawn *)

Lemma half_double a : a == 2 * (a / 2).
Proof. field. Qed.

Lemma clamp_cases v hi :
  0 <= hi →
  (0 <= v ∧ v <= hi ∧ Qmax 0 (Qmin v hi) == v)
  ∨ (v <= 0 ∧ Qmax 0 (Qmin v hi) == 0)
  ∨ (hi <= v ∧ Qmax 0 (Qmin v hi) == hi).
Proof.
  intros Hhi.
  destruct (Q.min_spec v hi) as [[Hlt Em]|[Hle Em]];
    destruct (Q.max_spec 0 (Qmin v hi)) as [[H0 EM]|[H0 EM]];
    set (m := Qmin v hi) in *; set (M := Qmax 0 m) in *.
  - left. repeat split; lra.
  - right. left. split; lra.
  - right. right. split; lra.
  - right. right. split; lra.
Qed.

(** X15.  While the player stored under [myPlayerId] is still the
    snapshot [myPlayer] refers to (as it is from the join until a bulk
    move or a join-of-one rebinds that id) and the viewport is not
    clamped at a world edge, that stored player is at the centre of the
    canvas after [updateViewport]: its screen position is half the
    canvas size on each axis.  Once the store holds a newer snapshot
    the camera no longer follows it and this does not apply. *)
Theorem tracked_player_centred s k p :
  myPlayerId s = Some k →
  getPlayer k s = Some p →
  myPlayerObj s = Some p →
  canvasWidth s / 2 <= p_x p →
  p_x p <= worldWidth s - canvasWidth s / 2 →
  canvasHeight s / 2 <= p_y p →
  p_y p <= worldHeight s - canvasHeight s / 2 →
  let s' := updateViewport s in
  getPlayer k s' = Some p
  ∧ (let pos := worldToScreen s' (p_x p) (p_y p) in
     pos.1 == canvasWidth s / 2 ∧ pos.2 == canvasHeight s / 2).
Proof.
  intros _ Hk Hp Hx1 Hx2 Hy1 Hy2. simpl.
  split; [by rewrite (updateViewport_frame (getPlayer k)) by done|].
  destruct (viewport_updateViewport s p Hp) as [-> ->].
  pose proof (half_double (canvasWidth s)) as Hhw.
  pose proof (half_double (canvasHeight s)) as Hhh.
  set (hw := canvasWidth s / 2) in *. set (hh := canvasHeight s / 2) in *.
  destruct (clamp_cases (p_x p - hw)
              (worldWidth s - canvasWidth s)) as [(_&_&Ex)|[[? Ex]|[? Ex]]];
    [lra|..];
  destruct (clamp_cases (p_y p - hh)
              (worldHeight s - canvasHeight s)) as [(_&_&Ey)|[[? Ey]|[? Ey]]];
    try lra;
  set (Mx := Qmax 0 (Qmin (p_x p - hw) _)) in *;
  set (My := Qmax 0 (Qmin (p_y p - hh) _)) in *;
  split; lra.
Qed.

Lemma tracked_player_centred_witness :
  myPlayerId playing = Some "p1"
  ∧ getPlayer "p1" playing = myPlayerObj playing
  ∧ getPlayer "p1" (updateViewport playing) = Some (p1At 1024 1024 "south")
  ∧ (let pos := worldToScreen (updateViewport playing) 1024 1024 in
     pos.1 == 800 / 2 ∧ pos.2 == 600 / 2).
Proof.
  split; [reflexivity|]. split; [reflexivity|].
  apply (tracked_player_centred playing "p1" (p1At 1024 1024 "south")).
  - reflexivity.
  - reflexivity.
  - reflexivity.
  - by vm_compute.
  - by vm_compute.
  - by vm_compute.
  - by vm_compute.
Defined.

Lemma cull_test s sx sy :
  Qltb sx (- avatarSize s)
  || Qltb (canvasWidth s + avatarSize s) sx
  || Qltb sy (- avatarSize s)
  || Qltb (canvasHeight s + avatarSize s) sy = true
  ↔ offScreen s sx sy.
Proof.
  unfold offScreen. rewrite !orb_true_iff, !Qltb_lt. tauto.
Qed.

Lemma drawPlayerLabel_not_nil s name sx sy : drawPlayerLabel s name sx sy ≠ [].
Proof. done. Qed.

Lemma drawPlayer_visible s p :
  ¬ offScreen s (p_x p - viewportX s) (p_y p - viewportY s) →
  drawPlayer s p
  = (if bool_decide (Some (p_id p) = myPlayerId s)
     then drawPlayerGlow s (p_x p - viewportX s) (p_y p - viewportY s)
     else [])
    ++ drawAvatar s p (p_x p - viewportX s) (p_y p - viewportY s)
    ++ drawPlayerLabel s (p_username p)
         (p_x p - viewportX s) (p_y p - viewportY s).
Proof.
  intros Hvis. unfold drawPlayer. simpl.
  destruct (_ || _) eqn:Htest; [|done].
  by apply cull_test in Htest.
Qed.

(** X16.  Culling: [drawPlayer] makes no canvas call at all exactly when
    the player's screen position is more than [avatarSize] outside an
    edge of the canvas; a position on the boundary is still drawn. *)
Theorem drawPlayer_culled s p :
  let pos := worldToScreen s (p_x p) (p_y p) in
  drawPlayer s p = [] ↔ offScreen s pos.1 pos.2.
Proof.
  simpl. split.
  - intros Hnil.
    destruct (Qlt_le_dec (p_x p - viewportX s) (- avatarSize s)) as [|H1];
      [by left|].
    destruct (Qlt_le_dec (canvasWidth s + avatarSize s)
                (p_x p - viewportX s)) as [|H2]; [by right; left|].
    destruct (Qlt_le_dec (p_y p - viewportY s) (- avatarSize s)) as [|H3];
      [by right; right; left|].
    destruct (Qlt_le_dec (canvasHeight s + avatarSize s)
                (p_y p - viewportY s)) as [|H4]; [by right; right; right|].
    exfalso. rewrite drawPlayer_visible in Hnil.
    + apply app_eq_nil in Hnil as [_ Hnil].
      apply app_eq_nil in Hnil as [_ Hnil]. done.
    + unfold offScreen. intros [H|[H|[H|H]]]; lra.
  - intros Hoff. unfold drawPlayer. simpl.
    apply cull_test in Hoff. by rewrite Hoff.
Qed.

Lemma get_In {V} (m : list (string * V)) k v :
  JsMap.get k m = Some v → In (k, v) m.
Proof.
  induction m as [|[k' v'] m IH]; simpl; [done|].
  destruct (decide (k' = k)) as [->|Hne].
  - intros [= ->]. by left.
  - intros H. right. by apply IH.
Qed.

(** [drawPlayers] draws every stored player. *)
Lemma drawPlayers_draws s k p :
  getPlayer k s = Some p →
  ∃ before after, drawPlayers s = before ++ drawPlayer s p ++ after.
Proof.
  unfold getPlayer. intros H.
  destruct (JsMap.get k (players s)) as [r|] eqn:Hr; [|done]. simpl in H.
  apply get_In, in_split in Hr as (l1 & l2 & Hsplit).
  unfold drawPlayers. rewrite Hsplit, flat_map_app. simpl. rewrite H.
  by eexists _, _.
Qed.

(** X17.  While the player stored under [myPlayerId] is still the
    snapshot [myPlayer] refers to (as it is from the join until a bulk
    move or a join-of-one rebinds that id), that stored player is never
    culled when it is inside the world and the canvas is no larger than
    the world: after [updateViewport] its screen position lies on the
    canvas, [drawPlayers] draws it, and its drawing ends with the calls
    that draw its name.  Once the store holds a newer snapshot the
    camera no longer follows it and this does not apply. *)
Theorem tracked_player_visible s k p :
  myPlayerId s = Some k →
  getPlayer k s = Some p →
  myPlayerObj s = Some p →
  0 <= avatarSize s →
  0 <= canvasWidth s <= worldWidth s →
  0 <= canvasHeight s <= worldHeight s →
  0 <= p_x p <= worldWidth s →
  0 <= p_y p <= worldHeight s →
  let s' := updateViewport s in
  let pos := worldToScreen s' (p_x p) (p_y p) in
  (0 <= pos.1 <= canvasWidth s ∧ 0 <= pos.2 <= canvasHeight s)
  ∧ (∃ before after, drawPlayers s' = before ++ drawPlayer s' p ++ after)
  ∧ drawPlayerLabel s' (p_username p) pos.1 pos.2
      `suffix_of` drawPlayer s' p.
Proof.
  intros _ Hk Hp Hsz [Hw1 Hw2] [Hh1 Hh2] [Hx1 Hx2] [Hy1 Hy2] s' pos.
  assert (0 <= pos.1 <= canvasWidth s ∧ 0 <= pos.2 <= canvasHeight s)
    as Hpos.
  { subst pos s'. simpl.
    destruct (viewport_updateViewport s p Hp) as [-> ->].
    pose proof (half_double (canvasWidth s)) as Hhw.
    pose proof (half_double (canvasHeight s)) as Hhh.
    set (hw := canvasWidth s / 2) in *. set (hh := canvasHeight s / 2) in *.
    destruct (clamp_cases (p_x p - hw)
                (worldWidth s - canvasWidth s)) as [(?&?&Ex)|[[? Ex]|[? Ex]]];
      [lra|..];
    destruct (clamp_cases (p_y p - hh)
                (worldHeight s - canvasHeight s))
      as [(?&?&Ey)|[[? Ey]|[? Ey]]];
      try lra;
    set (Mx := Qmax 0 (Qmin (p_x p - hw) _)) in *;
    set (My := Qmax 0 (Qmin (p_y p - hh) _)) in *;
    repeat split; lra. }
  split; [exact Hpos|]. split.
  { apply (drawPlayers_draws s' k p). subst s'.
    by rewrite (updateViewport_frame (getPlayer k)) by done. }
  subst pos. simpl in *. rewrite drawPlayer_visible.
  - rewrite app_assoc. by apply suffix_app_r.
  - subst s'. unfold offScreen.
    rewrite !(updateViewport_frame canvasWidth),
      !(updateViewport_frame canvasHeight),
      !(updateViewport_frame avatarSize) by done.
    intros [H|[H|[H|H]]]; lra.
Qed.

Lemma tracked_player_visible_witness :
  let s := handle (resize 300 200) (joinedAt 2040 5) in
  let pos := worldToScreen (updateViewport s) 2040 5 in
  myPlayerId s = Some "p1"
  ∧ getPlayer "p1" s = myPlayerObj s
  ∧ (0 <= pos.1 <= 300 ∧ 0 <= pos.2 <= 200).
Proof.
  intros s pos. split; [reflexivity|]. split; [reflexivity|].
  apply (tracked_player_visible s "p1" (p1At 2040 5 "south")).
  - reflexivity.
  - reflexivity.
  - reflexivity.
  - by vm_compute.
  - by vm_compute.
  - by vm_compute.
  - by vm_compute.
  - by vm_compute.
Defined.

(** ** Sprites *)

(** X18.  [drawAvatar] makes no call exactly when the player's kind has
    no descriptor or the sprite for its kind, facing and frame is not in
    the cache.  Such a player, when on screen, still gets its glow (if
    it is the own player) and its name. *)
Theorem drawAvatar_skipped s p x y :
  (drawAvatar s p x y = []
   ↔ avatars s !! p_avatar p = None
     ∨ avatarImages s !! imageKey (p_avatar p) (p_facing p) (frameIndexOf p)
       = None)
  ∧ (let pos := worldToScreen s (p_x p) (p_y p) in
     ¬ offScreen s pos.1 pos.2 →
     drawAvatar s p pos.1 pos.2 = [] →
     drawPlayer s p
     = (if bool_decide (Some (p_id p) = myPlayerId s)
        then drawPlayerGlow s pos.1 pos.2 else [])
       ++ drawPlayerLabel s (p_username p) pos.1 pos.2).
Proof.
  split.
  - unfold drawAvatar.
    destruct (avatars s !! p_avatar p) as [a|]; [|by split; [left|]].
    destruct (avatarImages s !! _) as [img|]; [|by split; [right|]].
    split; [|by intros [|]].
    by destruct (bool_decide (p_facing p = "west")).
  - simpl. intros Hvis Hnil. rewrite drawPlayer_visible by done.
    by rewrite Hnil.
Qed.



(** ** Loading sprites *)

Lemma startedLoads_eq n a s :
  startedLoads n a s
  = flat_map
      (fun '(direction, frames) =>
         omap (fun x => x)
           (imap (fun i src =>
                    let key := imageKey n direction (N.of_nat i) in
                    match avatarImages s !! key with
                    | None => Some (key, src)
                    | Some _ => None
                    end) frames))
      (a_frames a).
Proof.
  unfold startedLoads, loadAvatarImages. simpl. by rewrite drop_app_length.
Qed.

(** X20.  [loadAvatarImages] only appends to the log of started loads
    and changes nothing else.  It starts a load for a frame of the
    descriptor exactly when the key of that frame is not in the cache:
    cached sprites are never requested again, and every uncached frame
    is requested under the key built from the kind, the direction and
    the frame's index. *)
Theorem loadAvatarImages_requests n a s key src :
  imageRequests (loadAvatarImages n a s)
  = imageRequests s ++ startedLoads n a s
  ∧ set_imageRequests (imageRequests s) (loadAvatarImages n a s) = s
  ∧ ((key, src) ∈ startedLoads n a s
     ↔ avatarImages s !! key = None
       ∧ ∃ direction frames i,
           (direction, frames) ∈ a_frames a
           ∧ frames !! i = Some src
           ∧ key = imageKey n direction (N.of_nat i)).
Proof.
  split; [|split].
  - rewrite startedLoads_eq. done.
  - by destruct s.
  - rewrite startedLoads_eq, list_elem_of_In, in_flat_map. split.
    + intros ([d fs] & Hin & Hks). apply list_elem_of_In in Hin, Hks.
      apply list_elem_of_omap in Hks as (o & Ho & ->).
      apply elem_of_lookup_imap in Ho as (i & src' & Ho & Hi). simpl in Ho.
      destruct (avatarImages s !! imageKey n d (N.of_nat i)) eqn:Hc;
        [done|].
      injection Ho as -> ->. split; [done|]. by exists d, fs, i.
    + intros (Hc & d & fs & i & Hin & Hi & ->). exists (d, fs).
      split; [by apply list_elem_of_In|]. apply list_elem_of_In.
      apply list_elem_of_omap. exists (Some (imageKey n d (N.of_nat i), src)).
      split; [|done]. apply elem_of_lookup_imap. exists i, src.
      split; [|done]. simpl. by rewrite Hc.
Qed.

(** X21.  The key under which a frame is loaded is the key under which
    it is drawn: once the image for frame [i] of direction [d] of a
    known kind has arrived, [drawAvatar] draws that image for a player
    of the kind facing [d] at frame [i]. *)
Theorem loaded_sprite_is_drawn s p a img x y :
  avatars s !! p_avatar p = Some a →
  let key := imageKey (p_avatar p) (p_facing p) (frameIndexOf p) in
  map pl_img (placements (drawAvatar (imageLoaded key img s) p x y) (1, 1) [])
  = [img].
Proof.
  intros Ha key. unfold drawAvatar, imageLoaded. simpl. rewrite Ha.
  subst key. rewrite lookup_insert_eq.
  by destruct (bool_decide (p_facing p = "west")).
Qed.

Lemma loaded_sprite_is_drawn_witness :
  map pl_img
    (placements
       (drawAvatar (imageLoaded "fox_west_0" (fox32 "fox-w0.png") playing)
          (p1At 1024 1024 "west") 400 300) (1, 1) [])
  = [fox32 "fox-w0.png"].
Proof.
  apply (loaded_sprite_is_drawn playing (p1At 1024 1024 "west") fox
           (fox32 "fox-w0.png") 400 300).
  reflexivity.
Defined.

Lemma imageKey_index_inj n d i j : imageKey n d i = imageKey n d j → i = j.
Proof.
  unfold imageKey. intros H.
  apply (inj (String.append n)) in H.
  apply (inj (String.append "_")) in H.
  apply (inj (String.append d)) in H.
  apply (inj (String.append "_")) in H.
  by apply (inj pretty) in H.
Qed.

(** X22.  Frames do not overwrite each other in the cache: the keys of
    two frame indices of one kind and direction differ, so the arrival
    of the image for another frame index leaves the sprite drawn for a
    player's own frame unchanged. *)
Theorem other_frame_keeps_sprite s p j img x y :
  j ≠ frameIndexOf p →
  imageKey (p_avatar p) (p_facing p) j
  ≠ imageKey (p_avatar p) (p_facing p) (frameIndexOf p)
  ∧ drawAvatar (imageLoaded (imageKey (p_avatar p) (p_facing p) j) img s)
      p x y
    = drawAvatar s p x y.
Proof.
  intros Hne.
  assert (imageKey (p_avatar p) (p_facing p) j
          ≠ imageKey (p_avatar p) (p_facing p) (frameIndexOf p)) as Hkey.
  { intros H. by apply imageKey_index_inj in H. }
  split; [done|]. unfold drawAvatar, imageLoaded. simpl.
  by rewrite lookup_insert_ne.
Qed.

Lemma other_frame_keeps_sprite_witness :
  1%N ≠ frameIndexOf (p1At 1024 1024 "east")
  ∧ drawAvatar (imageLoaded "fox_east_1" (fox32 "fox-e1.png") playing)
      (p1At 1024 1024 "east") 400 300
    = drawAvatar playing (p1At 1024 1024 "east") 400 300.
Proof.
  split; [done|].
  apply (other_frame_keeps_sprite playing (p1At 1024 1024 "east") 1%N
           (fox32 "fox-e1.png") 400 300).
  done.
Defined.

(** ** The event loop *)

Lemma frames_updateMovement s : frames (updateMovement s) = frames s.
Proof. by apply updateMovement_frame. Qed.

Lemma handle_frames e s :
  frames (handle e s)
  = frames s
    ++ (if isAnimationFrame e && needsRedraw s then [render s] else []).
Proof.
  destruct e as [|m| |c|c|w h| |w h|k img| |]; simpl;
    rewrite ?app_nil_r; try done.
  - apply handleMessage_frames.
  - unfold handleKeyDown. destruct (_ || _); [done|].
    destruct (bool_decide _); [done|]. by rewrite frames_updateMovement.
  - unfold handleKeyUp. by rewrite frames_updateMovement.
  - unfold resizeCanvas. simpl. destruct (myPlayer s); [|done].
    by rewrite updateViewport_frame by done.
  - unfold renderTick. destruct (needsRedraw s); simpl; [done|].
    by rewrite app_nil_r.
Qed.

Lemma errorScreens_updateMovement s :
  errorScreens (updateMovement s) = errorScreens s.
Proof. by apply updateMovement_frame. Qed.

Lemma errorScreens_handleMessage m s :
  errorScreens (handleMessage m s) = errorScreens s.
Proof.
  destruct m as [d|ps|p a|i|a]; simpl; try done.
  unfold handleJoinGame. destruct (jg_success d); [|done]. simpl.
  rewrite updateViewport_frame by done.
  by rewrite storeAvatars_frame by done.
Qed.

Lemma handle_errorScreens e s :
  errorScreens (handle e s)
  = errorScreens s ++ (if isLoadError e then [drawError s] else []).
Proof.
  destruct e as [|m| |c|c|w h| |w h|k img| |]; simpl;
    rewrite ?app_nil_r; try done.
  - apply errorScreens_handleMessage.
  - unfold handleKeyDown. destruct (_ || _); [done|].
    destruct (bool_decide _); [done|]. by rewrite errorScreens_updateMovement.
  - unfold handleKeyUp. by rewrite errorScreens_updateMovement.
  - unfold resizeCanvas. simpl. destruct (myPlayer s); [|done].
    by rewrite updateViewport_frame by done.
  - unfold renderTick. by destruct (needsRedraw s).
Qed.

(** X23.  [render()] runs only in animation frames: whatever the
    events, the frames rendered before stay as they are and the number
    of new ones is at most the number of animation frames among the
    events.  The one drawing on the canvas outside [render()] is
    [drawError()]: it happens exactly once per error event of the world
    image, at once and whether or not an animation frame follows, and
    no other event draws. *)
Theorem render_only_at_ticks es s :
  frames s `prefix_of` frames (run es s)
  ∧ (length (frames (run es s)) ≤ length (frames s) + ticks es)%nat
  ∧ errorScreens s `prefix_of` errorScreens (run es s)
  ∧ length (errorScreens (run es s))
    = (length (errorScreens s) + loadErrors es)%nat.
Proof.
  unfold run, ticks, loadErrors. revert s.
  induction es as [|e es IH]; intros s; simpl.
  - repeat split; [done | lia | done | lia].
  - destruct (IH (handle e s)) as (Hpre & Hlen & Hepre & Helen).
    rewrite handle_frames in Hpre, Hlen.
    rewrite handle_errorScreens in Hepre, Helen.
    split; [|split; [|split]].
    + etrans; [|exact Hpre]. by apply prefix_app_r.
    + rewrite length_app in Hlen.
      destruct (isAnimationFrame e); simpl in *;
        [destruct (needsRedraw s)|]; simpl in *; lia.
    + etrans; [|exact Hepre]. by apply prefix_app_r.
    + rewrite length_app in Helen.
      destruct (isLoadError e); simpl in *; lia.
Qed.

Lemma needsRedraw_updateMovement s :
  needsRedraw s = true → needsRedraw (updateMovement s) = true.
Proof.
  intros H. unfold updateMovement.
  destruct (getMovementDirections s) as [|d ds]; simpl.
  - by rewrite sendStopCommand_frame.
  - rewrite updateViewport_frame by done. unfold updatePlayerFacing.
    destruct (myPlayer _); [|simpl; by rewrite sendMoveCommand_frame].
    destruct (objects _ !! _); [done|].
    simpl. by rewrite sendMoveCommand_frame.
Qed.

Lemma handle_keeps_dirty e s :
  isAnimationFrame e = false →
  needsRedraw s = true → needsRedraw (handle e s) = true.
Proof.
  intros He Hs. destruct e as [|m| |c|c|w h| |w h|k img| |]; simpl;
    try done.
  - by apply handleMessage_keeps_dirty.
  - unfold handleKeyDown. destruct (_ || _); [done|].
    destruct (bool_decide _); [done|]. by apply needsRedraw_updateMovement.
  - by apply needsRedraw_updateMovement.
Qed.

(** X24.  A pending redraw is never lost: no handler other than the
    animation frame clears the flag, so once it is set it stays set over
    any events until the next animation frame, which draws and clears
    it. *)
Theorem pending_redraw_kept es s :
  needsRedraw s = true → ticks es = 0%nat →
  needsRedraw (run es s) = true
  ∧ frames (run (es ++ [animationFrame]) s)
    = frames s ++ [render (run es s)]
  ∧ needsRedraw (run (es ++ [animationFrame]) s) = false.
Proof.
  intros Hs Hticks.
  assert (needsRedraw (run es s) = true ∧ frames (run es s) = frames s)
    as [Hdirty Hframes].
  { unfold run, ticks in *. revert s Hs Hticks.
    induction es as [|e es IH]; intros s Hs Hticks; simpl in *; [done|].
    destruct (isAnimationFrame e) eqn:He; [done|].
    destruct (IH (handle e s)) as [H1 H2];
      [by apply handle_keeps_dirty | done |].
    split; [done|]. rewrite H2, handle_frames, He. simpl.
    by rewrite app_nil_r. }
  split; [done|]. unfold run in *. rewrite fold_left_app. simpl.
  unfold renderTick. rewrite Hdirty. simpl. by rewrite Hframes.
Qed.

Lemma pending_redraw_kept_witness :
  let es := [keydown "ArrowUp"; ws_onmessage (in_player_left "p9");
             resize 640 480; ws_onclose] in
  length (frames (run (es ++ [animationFrame]) (joinedAt 5 5))) = 1%nat
  ∧ needsRedraw (run (es ++ [animationFrame]) (joinedAt 5 5)) = false.
Proof.
  intros es.
  destruct (pending_redraw_kept es (joinedAt 5 5) eq_refl eq_refl)
    as (_ & H2 & H3).
  split; [by rewrite H2 | exact H3].
Defined.

(** ** The socket *)

Lemma connected_updateMovement s : connected (updateMovement s) = connected s.
Proof. by apply updateMovement_frame. Qed.

Lemma handle_connected e s :
  connected (handle e s)
  = match e with
    | ws_onopen => true
    | ws_onclose => false
    | _ => connected s
    end.
Proof.
  destruct e as [|m| |c|c|w h| |w h|k img| |]; simpl; try done.
  - destruct m as [d|ps|p a|i|a]; simpl; try done.
    unfold handleJoinGame. destruct (jg_success d); [|done]. simpl.
    rewrite updateViewport_frame by done.
    by rewrite storeAvatars_frame by done.
  - unfold handleKeyDown. destruct (_ || _); [done|].
    destruct (bool_decide _); [done|]. by rewrite connected_updateMovement.
  - unfold handleKeyUp. by rewrite connected_updateMovement.
  - unfold resizeCanvas. simpl. destruct (myPlayer s); [|done].
    by rewrite updateViewport_frame by done.
  - unfold renderTick. by destruct (needsRedraw s).
Qed.

Lemma sent_handleMessage m s : sent (handleMessage m s) = sent s.
Proof.
  destruct m as [d|ps|p a|i|a]; simpl; try done.
  unfold handleJoinGame. destruct (jg_success d); [|done]. simpl.
  rewrite updateViewport_frame by done.
  by rewrite storeAvatars_frame by done.
Qed.

(** The event sends nothing: what is left to show is that [sent] is
    unchanged. *)
Ltac nothing_new :=
  exists []; rewrite app_nil_r;
  split; [|split; [simpl; lia | split; [done | done]]].

(** What one event sends: the join when the socket opens, the current
    intent on a key event that reaches [updateMovement] while connected,
    and nothing otherwise. *)
Lemma handle_sent e s :
  ∃ new, sent (handle e s) = sent s ++ new
         ∧ (length new ≤ 1)%nat
         ∧ (e = ws_onopen → new = [out_join_game "Tim"])
         ∧ (e ≠ ws_onopen → connected s = false → new = []).
Proof.
  destruct e as [|m| |c|c|w h| |w h|k img| |]; simpl.
  - exists [out_join_game "Tim"].
    split; [done|]. split; [simpl; lia|]. split; done.
  - nothing_new. apply sent_handleMessage.
  - nothing_new. done.
  - unfold handleKeyDown. destruct (_ || _); [nothing_new; done|].
    destruct (bool_decide _); [nothing_new; done|].
    rewrite updateMovement_sent. simpl. eexists. split; [reflexivity|].
    destruct (connected s); (split; [simpl; lia|]); split; done.
  - unfold handleKeyUp. rewrite updateMovement_sent. simpl.
    eexists. split; [reflexivity|].
    destruct (connected s); (split; [simpl; lia|]); split; done.
  - nothing_new. destruct (myPlayer s); [|done].
    by rewrite updateViewport_frame by done.
  - nothing_new. unfold renderTick. by destruct (needsRedraw s).
  - nothing_new. done.
  - nothing_new. done.
  - nothing_new. done.
  - nothing_new. done.
Qed.

(** X25.  Only the socket's own events change [connected], and until
    the socket opens nothing is sent: over any events without
    [ws_onopen], a client that is not connected stays so and its log of
    sent messages stays as it is. *)
Theorem nothing_sent_before_open es s :
  connected s = false → ws_onopen ∉ es →
  connected (run es s) = false ∧ sent (run es s) = sent s.
Proof.
  unfold run. revert s.
  induction es as [|e es IH]; intros s Hs Hno; simpl; [done|].
  apply not_elem_of_cons in Hno as [Hne Hno].
  assert (connected (handle e s) = false) as Hc.
  { rewrite handle_connected. by destruct e. }
  destruct (IH (handle e s) Hc Hno) as [H1 H2]. split; [done|].
  rewrite H2. destruct (handle_sent e s) as (new & -> & _ & _ & Hnil).
  rewrite Hnil by done. by rewrite app_nil_r.
Qed.

Lemma nothing_sent_before_open_witness :
  let es := [keydown "ArrowUp"; keyup "ArrowUp"; resize 10 10;
             animationFrame; ws_onclose; keydown "ArrowLeft"] in
  connected (init 800 600) = false ∧ (ws_onopen ∉ es)
  ∧ sent (run es (init 800 600)) = [].
Proof.
  intros es.
  assert (ws_onopen ∉ es) as Hno.
  { intros H. repeat (apply elem_of_cons in H as [H|H]; [discriminate H|]).
    by apply elem_of_nil in H. }
  split; [reflexivity|]. split; [exact Hno|].
  apply (proj2 (nothing_sent_before_open es (init 800 600) eq_refl Hno)).
Defined.

(** X26.  One event sends at most one message and never takes one
    back; the opening of the socket sends the join, so a reconnect joins
    again. *)
Theorem one_message_per_event e s :
  sent s `prefix_of` sent (handle e s)
  ∧ (length (sent (handle e s)) ≤ S (length (sent s)))%nat
  ∧ sent (handle ws_onopen s) = sent s ++ [out_join_game "Tim"]
  ∧ sent (run [ws_onclose; ws_onopen] s) = sent s ++ [out_join_game "Tim"].
Proof.
  destruct (handle_sent e s) as (new & Hs & Hlen & _).
  split; [rewrite Hs; by apply prefix_app_r|].
  split; [rewrite Hs, length_app; lia|]. done.
Qed.

(** ** The minimap *)

Lemma dots_app ops1 ops2 : dots (ops1 ++ ops2) = (dots ops1 + dots ops2)%nat.
Proof. unfold dots. by rewrite List.filter_app, length_app. Qed.

Lemma dots_flat_map {A} (f : A → list CanvasOp) (l : list A) :
  (∀ x, x ∈ l → dots (f x) = 1%nat) → dots (flat_map f l) = length l.
Proof.
  induction l as [|x l IH]; intros Hf; [done|].
  change (flat_map f (x :: l)) with (f x ++ flat_map f l).
  rewrite dots_app, Hf by apply list_elem_of_here.
  rewrite IH; [done|]. intros y Hy. apply Hf. by apply list_elem_of_further.
Qed.

(** X27.  The minimap is drawn only when the world image exists and a
    player is tracked; then it shows one dot per stored player, and
    otherwise [drawMinimap] makes no call. *)
Theorem drawMinimap_dots s :
  wf s →
  (worldImage s = None ∨ myPlayer s = None → drawMinimap s = [])
  ∧ (is_Some (worldImage s) → is_Some (myPlayer s) →
     dots (drawMinimap s) = length (players s)
     ∧ head (drawMinimap s)
       = Some (op_clearRect 0 0 (minimapWidth s) (minimapHeight s))).
Proof.
  intros [Hpl _]. unfold drawMinimap. split.
  - intros [-> | ->]; [done|]. by destruct (worldImage s).
  - intros [img ->] [r ->]. split; [|done].
    rewrite !dots_app, dots_flat_map; [unfold dots; simpl; lia|].
    intros [k r'] Hin. rewrite Forall_forall in Hpl.
    apply Hpl in Hin. simpl in Hin.
    apply lookup_lt_is_Some_2 in Hin as [p Hp]. by rewrite Hp.
Qed.

Lemma drawMinimap_dots_witness :
  let s := handle (ws_onmessage (in_player_joined
                                   (mkPlayer "p2" "Ann" 40 50 "east" "fox" None)
                                   fox)) playing in
  wf s ∧ dots (drawMinimap s) = 2%nat.
Proof.
  intros s.
  assert (wf s) as Hwf.
  { split.
    - vm_compute. repeat constructor.
    - vm_compute. intros r [= <-]. repeat constructor. }
  split; [exact Hwf|].
  destruct (drawMinimap_dots s Hwf) as [_ H].
  destruct (H ltac:(by eexists) ltac:(by eexists)) as [-> _].
  reflexivity.
Defined.

(** ** How far facing prediction reaches *)

Lemma objects_updateMovement_other s r :
  myPlayer s ≠ Some r → objects (updateMovement s) !! r = objects s !! r.
Proof.
  intros Hne. unfold updateMovement.
  destruct (getMovementDirections s) as [|d ds]; simpl.
  - by rewrite sendStopCommand_frame.
  - rewrite updateViewport_frame by done.
    rewrite objects_updatePlayerFacing_other.
    + simpl. by rewrite sendMoveCommand_frame.
    + simpl. by rewrite sendMoveCommand_frame.
Qed.

Lemma players_updateMovement s : players (updateMovement s) = players s.
Proof. by apply updateMovement_frame. Qed.

Lemma ref_handlePlayersMoved es s k p :
  Obj.get k es = Some p →
  ∃ i, JsMap.get k (players (handlePlayersMoved es s))
       = Some (length (objects s) + i)%nat
       ∧ objects (handlePlayersMoved es s) !! (length (objects s) + i)%nat
         = Some p.
Proof.
  intros Hk. unfold handlePlayersMoved. simpl. rewrite get_set_all.
  pose proof (obj_get_alloc es (length (objects s)) k) as Halloc.
  rewrite Hk in Halloc. destruct Halloc as (i & -> & Hi). exists i.
  split; [done|]. rewrite lookup_app_r by lia.
  by replace (length (objects s) + i - length (objects s))%nat with i by lia.
Qed.

(** X28.  After a bulk move the prediction no longer reaches the store:
    for every id the message names, [updateMovement] leaves the stored
    snapshot exactly as the server sent it, the tracked player's
    included, because [myPlayer] still refers to an older object. *)
Theorem prediction_misses_moved_players es s k p :
  wf s → Obj.get k es = Some p →
  getPlayer k (updateMovement (handlePlayersMoved es s)) = Some p.
Proof.
  intros [_ Hmy] Hk.
  destruct (ref_handlePlayersMoved es s k p Hk) as (i & Href & Hobj).
  unfold getPlayer. rewrite players_updateMovement, Href. simpl.
  rewrite objects_updateMovement_other; [done|].
  change (myPlayer (handlePlayersMoved es s)) with (myPlayer s).
  intros Heq. apply Hmy in Heq. lia.
Qed.

Lemma prediction_misses_moved_players_witness :
  let es := [("p1", p1At 1100 1024 "east")] in
  let s := updateMovement (handlePlayersMoved es playing) in
  wf playing ∧ getPlayer "p1" s = Some (p1At 1100 1024 "east").
Proof.
  intros es s. split; [exact wf_playing|].
  apply (prediction_misses_moved_players es playing "p1"
           (p1At 1100 1024 "east") wf_playing eq_refl).
Defined.

(** X29.  Right after a successful join the prediction does reach the
    store: [myPlayer] is the very object stored under the assigned id,
    so [updatePlayerFacing] turns the stored player. *)
Theorem prediction_reaches_joined_player d s direction :
  jg_success d = true →
  getPlayer (jg_playerId d) (updatePlayerFacing direction (handleJoinGame d s))
  = set_p_facing (directionMap direction)
      <$> Obj.get (jg_playerId d) (jg_players d).
Proof.
  intros Hok.
  destruct (handleJoinGame_parts d s Hok)
    as (s1 & -> & Ho & Hp & Hm & _).
  pose proof (myPlayerObj_joined d s s1 Ho Hm) as Hobj.
  set (s' := set_needsRedraw true (updateViewport s1)).
  assert (myPlayer s' = JsMap.get (jg_playerId d) (players s')) as Hsame.
  { subst s'. simpl. rewrite !updateViewport_frame by done.
    by rewrite Hm, Hp, obj_get_set_all_nil. }
  assert (myPlayerObj s' = Obj.get (jg_playerId d) (jg_players d)) as Hobj'.
  { rewrite <- Hobj. subst s'. unfold myPlayerObj. simpl.
    by rewrite !updateViewport_frame by done. }
  rewrite <- Hobj', <- myPlayerObj_updatePlayerFacing.
  unfold getPlayer, myPlayerObj.
  rewrite !(updatePlayerFacing_frame players) by done.
  rewrite !(updatePlayerFacing_frame myPlayer) by done.
  by rewrite Hsame.
Qed.

Lemma prediction_reaches_joined_player_witness :
  let d := mkJoinGameData true "p1" [("p1", p1At 7 8 "south")] [] "" in
  jg_success d = true
  ∧ getPlayer "p1" (updatePlayerFacing left (handleJoinGame d playing))
    = Some (p1At 7 8 "west").
Proof.
  intros d. split; [reflexivity|].
  apply (prediction_reaches_joined_player d playing left eq_refl).
Defined.
